(** * Item store of the assignments API: users, items, tokens

    A shallow embedding of [crud.py], [auth.py], [schemas.py] and
    [models.py].  The SQLite database behind the SQLAlchemy session is a
    record of two tables, each a list of rows in rowid order; every store
    operation takes the database and gives back the database after the
    call together with what the Python function returns or raises.

    Conventions:
    - a Python [int] is a [Z]; the integers bound into a statement are
      taken to fit SQLite's 64-bit INTEGER;
    - a [str] is a [string] of 8-bit characters, [len] is [String.length];
    - the schema classes of [schemas.py] are records, and their field
      constraints boolean predicates ([ItemCreate_valid] and the like):
      FastAPI hands a handler only objects that pass them;
    - ORDER BY keeps rows with equal keys in scan order (SQL leaves their
      order open);
    - the attributes that [models.Item] inherits from the declarative
      [Base] are a parameter of the list query. *)

From Stdlib Require Import ZArith List String Ascii Bool Lia Permutation Sorted.
Import ListNotations.

Local Open Scope string_scope.
Local Open Scope list_scope.
Local Open Scope Z_scope.

(** ** Strings: the Python [str] methods and the SQLite string functions
       the code calls.  A string is a sequence of 8-bit characters. *)

Module Str.

Definition is_upper (c : ascii) : bool :=
  ((65 <=? nat_of_ascii c) && (nat_of_ascii c <=? 90))%nat.

Definition is_lower (c : ascii) : bool :=
  ((97 <=? nat_of_ascii c) && (nat_of_ascii c <=? 122))%nat.

Definition is_digit (c : ascii) : bool :=
  ((48 <=? nat_of_ascii c) && (nat_of_ascii c <=? 57))%nat.

(** [A-Z] to [a-z], every other character unchanged: SQLite's [lower()],
    and Python's [str.lower] on the characters of this model. *)
Definition lower_char (c : ascii) : ascii :=
  if is_upper c then ascii_of_nat (nat_of_ascii c + 32) else c.

Fixpoint lower (s : string) : string :=
  match s with
  | EmptyString => EmptyString
  | String c s' => String (lower_char c) (lower s')
  end.

Fixpoint forallb (f : ascii -> bool) (s : string) : bool :=
  match s with
  | EmptyString => true
  | String c s' => f c && forallb f s'
  end.

(** [s.startswith(p)] *)
Fixpoint startswith (s p : string) {struct p} : bool :=
  match p with
  | EmptyString => true
  | String a p' =>
      match s with
      | EmptyString => false
      | String b s' => Ascii.eqb a b && startswith s' p'
      end
  end.

(** [needle in hay] *)
Fixpoint contains (needle hay : string) : bool :=
  startswith hay needle
  || match hay with
     | EmptyString => false
     | String _ hay' => contains needle hay'
     end.

(** The text before the first [sep] and, when there is one, the text
    after it. *)
Fixpoint partition1 (sep : ascii) (s : string) : string * option string :=
  match s with
  | EmptyString => (EmptyString, None)
  | String c s' =>
      if Ascii.eqb c sep then (EmptyString, Some s')
      else let '(h, t) := partition1 sep s' in (String c h, t)
  end.

(** [s.split(sep, 1)] for a one-character separator. *)
Definition split1 (sep : ascii) (s : string) : list string :=
  let '(h, t) := partition1 sep s in
  h :: match t with Some r => [r] | None => [] end.

End Str.

(** ** SQL values and operators, as SQLite evaluates them *)

Module Sql.

Inductive value :=
| Null
| Integer (z : Z)
| Text (s : string).

(** Storage-class order of ORDER BY: NULL, then numbers, then text;
    text under the BINARY collation. *)
Definition compare (a b : value) : comparison :=
  match a, b with
  | Null, Null => Eq
  | Null, _ => Lt
  | _, Null => Gt
  | Integer x, Integer y => Z.compare x y
  | Integer _, Text _ => Lt
  | Text _, Integer _ => Gt
  | Text x, Text y => String.compare x y
  end.

Definition leb (a b : value) : bool :=
  match compare a b with Gt => false | _ => true end.

(** [s LIKE p]: [%] matches any run of characters, [_] any one
    character, every other character itself up to ASCII case.  No
    escape character is in force. *)
Fixpoint like (p s : string) {struct p} : bool :=
  match p with
  | EmptyString =>
      match s with EmptyString => true | String _ _ => false end
  | String c p' =>
      if Ascii.eqb c "%" then
        (fix any (s : string) : bool :=
           like p' s
           || match s with
              | EmptyString => false
              | String _ s' => any s'
              end) s
      else
        match s with
        | EmptyString => false
        | String d s' =>
            (Ascii.eqb c "_" || Ascii.eqb (Str.lower_char c) (Str.lower_char d))
            && like p' s'
        end
  end.

(** [col.ilike(term)], compiled for SQLite as
    [lower(col) LIKE lower(term)]; NULL when the column is NULL. *)
Definition ilike (col : option string) (term : string) : option bool :=
  match col with
  | None => None
  | Some s => Some (like (Str.lower term) (Str.lower s))
  end.

(** Three-valued OR. *)
Definition or (a b : option bool) : option bool :=
  match a, b with
  | Some true, _ | _, Some true => Some true
  | Some false, Some false => Some false
  | _, _ => None
  end.

(** A WHERE clause keeps the rows on which its condition is true. *)
Definition holds (v : option bool) : bool :=
  match v with Some true => true | _ => false end.

(** [LIMIT n]: a negative [n] is no limit. *)
Definition limit {A} (n : Z) (rows : list A) : list A :=
  if n <? 0 then rows else firstn (Z.to_nat n) rows.

(** [OFFSET n]: a negative [n] skips nothing. *)
Definition offset {A} (n : Z) (rows : list A) : list A :=
  skipn (Z.to_nat n) rows.

Section OrderBy.
Context {A : Type} (key : A -> value).

Fixpoint insert_by (le : value -> value -> bool) (x : A) (l : list A) : list A :=
  match l with
  | [] => [x]
  | y :: l' => if le (key x) (key y) then x :: l else y :: insert_by le x l'
  end.

(** [ORDER BY key ASC]; rows with equal keys stay in scan order. *)
Definition order_asc (rows : list A) : list A :=
  fold_right (insert_by leb) [] rows.

(** [ORDER BY key DESC]; rows with equal keys stay in scan order. *)
Definition order_desc (rows : list A) : list A :=
  fold_right (insert_by (fun a b => leb b a)) [] rows.
End OrderBy.

End Sql.

(** ** What a call raises *)

Inductive Exception :=
| ValueError (msg : string)
| HTTPException (status_code : Z) (detail : string)
| ValidationError           (* pydantic: a field constraint fails *)
| IntegrityError            (* sqlalchemy.exc: UNIQUE constraint failed *)
| CompileError              (* sqlalchemy.exc: unresolvable ORDER BY label *)
| ArgumentError             (* sqlalchemy.exc: not a SQL expression *)
| IndexError.

Inductive Result (A : Type) :=
| Ok (a : A)
| Raise (e : Exception).
Arguments Ok {A} a.
Arguments Raise {A} e.

Definition Result_map {A B} (f : A -> B) (r : Result A) : Result B :=
  match r with
  | Ok a => Ok (f a)
  | Raise e => Raise e
  end.

(** ** models.py: the two tables *)

Record User := mkUser {
  User_id : Z;
  User_username : string;
  User_full_name : option string;
  User_hashed_password : string
}.

Record Item := mkItem {
  Item_id : Z;
  Item_title : string;
  Item_description : option string;
  Item_owner_id : Z
}.

Record DB := mkDB {
  users : list User;
  items : list Item
}.

Definition empty_db : DB := {| users := []; items := [] |}.

(** The key of a new row of an INTEGER PRIMARY KEY column: one more than
    the largest key in the table, 1 in an empty table. *)
Definition next_id (ids : list Z) : Z := fold_right Z.max 0 ids + 1.

(** [select(models.Item).join(models.User)]: the inner join on the
    foreign key [items.owner_id = users.id]. *)
Definition join_Item_User (db : DB) : list (Item * User) :=
  flat_map
    (fun it =>
       map (fun u => (it, u))
           (filter (fun u => User_id u =? Item_owner_id it) (users db)))
    (items db).

(** [.unique()]: one entry per mapped object, that is per primary key. *)
Fixpoint unique (l : list Item) : list Item :=
  match l with
  | [] => []
  | it :: l' =>
      it :: filter (fun it' => negb (Item_id it' =? Item_id it)) (unique l')
  end.

(** ** schemas.py *)

Record UserCreate := mkUserCreate {
  UserCreate_username : string;
  UserCreate_full_name : option string;
  UserCreate_password : string
}.

Record UserOut := mkUserOut {
  UserOut_id : Z;
  UserOut_username : string;
  UserOut_full_name : option string
}.

Record ItemCreate := mkItemCreate {
  ItemCreate_title : string;
  ItemCreate_description : option string
}.

Record ItemUpdate := mkItemUpdate {
  ItemUpdate_title : option string;
  ItemUpdate_description : option string
}.

Definition len_between (lo hi : nat) (s : string) : bool :=
  ((lo <=? String.length s) && (String.length s <=? hi))%nat.

(** An [Optional[str]] field with a maximal length. *)
Definition opt_max_length (hi : nat) (o : option string) : bool :=
  match o with
  | None => true
  | Some s => len_between 0 hi s
  end.

(** [UserBase]: [username] of 3 to 50 characters, [full_name] of at most 120. *)
Definition UserBase_valid (username : string) (full_name : option string) : bool :=
  len_between 3 50 username && opt_max_length 120 full_name.

(** [UserCreate]: [UserBase] and a [password] of at least 6 characters. *)
Definition UserCreate_valid (u : UserCreate) : bool :=
  UserBase_valid (UserCreate_username u) (UserCreate_full_name u)
  && (6 <=? String.length (UserCreate_password u))%nat.

(** The character class of the title pattern [[A-Za-z0-9 '\-_,\.]]. *)
Definition title_char (c : ascii) : bool :=
  Str.is_upper c || Str.is_lower c || Str.is_digit c
  || Ascii.eqb c " " || Ascii.eqb c "'" || Ascii.eqb c "-"
  || Ascii.eqb c "_" || Ascii.eqb c "," || Ascii.eqb c ".".

(** [pattern=r"^[A-Za-z0-9 '\-_,\.]+$"]: one or more characters, all of
    the class. *)
Definition title_pattern (s : string) : bool :=
  negb (String.eqb s "") && Str.forallb title_char s.

Definition banned : list string := ["badword"].

(** [ItemBase.no_banned_words]: [any(b in v.lower() for b in banned)]
    raises. *)
Definition no_banned_words (v : string) : bool :=
  negb (existsb (fun b => Str.contains b (Str.lower v)) banned).

(** The constraints of [ItemBase.title]: length, pattern, then the field
    validator. *)
Definition ItemBase_title_valid (title : string) : bool :=
  len_between 3 200 title && title_pattern title && no_banned_words title.

Definition ItemBase_valid (title : string) (description : option string) : bool :=
  ItemBase_title_valid title && opt_max_length 2000 description.

Definition ItemCreate_valid (i : ItemCreate) : bool :=
  ItemBase_valid (ItemCreate_title i) (ItemCreate_description i).

(** [ItemUpdate.title_validator]: [if v and len(v) < 3: raise]. *)
Definition title_validator (v : option string) : bool :=
  match v with
  | None => true
  | Some s => negb (negb (String.eqb s "") && (String.length s <? 3)%nat)
  end.

(** [ItemUpdate]: [title] absent or of 3 to 200 characters, [description]
    absent or of at most 2000, then [title_validator]. *)
Definition ItemUpdate_valid (i : ItemUpdate) : bool :=
  match ItemUpdate_title i with
  | None => true
  | Some s => len_between 3 200 s
  end
  && opt_max_length 2000 (ItemUpdate_description i)
  && title_validator (ItemUpdate_title i).

(** [UserOut.model_validate(user)] on an ORM row. *)
Definition UserOut_model_validate (u : User) : Result UserOut :=
  if UserBase_valid (User_username u) (User_full_name u)
  then Ok {| UserOut_id := User_id u;
             UserOut_username := User_username u;
             UserOut_full_name := User_full_name u |}
  else Raise ValidationError.

(** ** crud.py *)

Definition fake_hash_password (password : string) : string :=
  ("fakehashed" ++ password)%string.

(** [select(User).where(User.username == username)], [.first()]. *)
Definition get_user_by_username (db : DB) (username : string) : option User :=
  find (fun u => String.eqb (User_username u) username) (users db).

(** The INSERT fails on the UNIQUE index of [users.username]; nothing is
    committed then. *)
Definition create_user (db : DB) (user_in : UserCreate) : DB * Result User :=
  if existsb (fun u => String.eqb (User_username u) (UserCreate_username user_in))
             (users db)
  then (db, Raise IntegrityError)
  else
    let user :=
      {| User_id := next_id (map User_id (users db));
         User_username := UserCreate_username user_in;
         User_full_name := UserCreate_full_name user_in;
         User_hashed_password := fake_hash_password (UserCreate_password user_in) |} in
    ({| users := users db ++ [user]; items := items db |}, Ok user).

Definition create_item (db : DB) (item_in : ItemCreate) (owner_username : string)
  : DB * Result Item :=
  match get_user_by_username db owner_username with
  | None => (db, Raise (ValueError "owner not found"))
  | Some owner =>
      let item :=
        {| Item_id := next_id (map Item_id (items db));
           Item_title := ItemCreate_title item_in;
           Item_description := ItemCreate_description item_in;
           Item_owner_id := User_id owner |} in
      ({| users := users db; items := items db ++ [item] |}, Ok item)
  end.

Definition get_item (db : DB) (item_id : Z) : option Item :=
  find (fun it => Item_id it =? item_id) (items db).

(** The query that [update_item] and [delete_item] share:
    [select(Item).join(User).where(Item.id == item_id,
    User.username == owner_username)], [.scalars().first()]. *)
Definition select_owned (db : DB) (item_id : Z) (owner_username : string)
  : option Item :=
  hd_error
    (map fst
       (filter
          (fun r => (Item_id (fst r) =? item_id)
                    && String.eqb (User_username (snd r)) owner_username)
          (join_Item_User db))).

(** The attribute writes of [update_item]: a field of the patch that is
    [None] leaves the attribute as it is. *)
Definition apply_patch (item : Item) (item_in : ItemUpdate) : Item :=
  {| Item_id := Item_id item;
     Item_title :=
       match ItemUpdate_title item_in with
       | Some t => t
       | None => Item_title item
       end;
     Item_description :=
       match ItemUpdate_description item_in with
       | Some d => Some d
       | None => Item_description item
       end;
     Item_owner_id := Item_owner_id item |}.

(** The commit writes the row of the item's primary key; the refresh
    reads that row back. *)
Definition update_item (db : DB) (item_id : Z) (item_in : ItemUpdate)
           (owner_username : string) : DB * option Item :=
  match select_owned db item_id owner_username with
  | None => (db, None)
  | Some item =>
      let item' := apply_patch item item_in in
      ({| users := users db;
          items := map (fun it => if Item_id it =? Item_id item then item' else it)
                       (items db) |},
       Some item')
  end.

Definition delete_item (db : DB) (item_id : Z) (owner_username : string)
  : DB * bool :=
  match select_owned db item_id owner_username with
  | None => (db, false)
  | Some item =>
      ({| users := users db;
          items := filter (fun it => negb (Item_id it =? Item_id item)) (items db) |},
       true)
  end.

(** *** The list query *)

Inductive Column := col_id | col_title | col_description | col_owner_id.

Definition column_value (c : Column) (it : Item) : Sql.value :=
  match c with
  | col_id => Sql.Integer (Item_id it)
  | col_title => Sql.Text (Item_title it)
  | col_description =>
      match Item_description it with
      | None => Sql.Null
      | Some d => Sql.Text d
      end
  | col_owner_id => Sql.Integer (Item_owner_id it)
  end.

(** The name of a column of the SELECT list, for a textual ORDER BY. *)
Definition column_named (s : string) : option Column :=
  if String.eqb s "id" then Some col_id
  else if String.eqb s "title" then Some col_title
  else if String.eqb s "description" then Some col_description
  else if String.eqb s "owner_id" then Some col_owner_id
  else None.

(** The key of a row of the joined query under an ORDER BY operand. *)
Definition OrderKey : Type := Item * User -> Sql.value.

Definition by_column (c : Column) : OrderKey := fun r => column_value c (fst r).

(** What the class body of [models.Item] binds a name to. *)
Inductive Attribute :=
| Mapped (c : Column)       (* a Column: id, title, description, owner_id *)
| Relationship              (* owner = relationship("User", ...) *)
| PlainStr (s : string).    (* __tablename__ = "items" *)

Definition Item_declared (name : string) : option Attribute :=
  if String.eqb name "__tablename__" then Some (PlainStr "items")
  else if String.eqb name "owner" then Some Relationship
  else option_map Mapped (column_named name).

(** [asc(v)] / [desc(v)] and the compilation of the ORDER BY, for the
    value [v] of a declared attribute: a column orders by itself; the
    relationship by its join condition [users.id = items.owner_id]; a
    string is a label of the SELECT list or does not compile. *)
Definition order_operand (a : Attribute) : Result OrderKey :=
  match a with
  | Mapped c => Ok (by_column c)
  | Relationship =>
      Ok (fun r => Sql.Integer (if User_id (snd r) =? Item_owner_id (fst r) then 1 else 0))
  | PlainStr s =>
      match column_named s with
      | Some c => Ok (by_column c)
      | None => Raise CompileError
      end
  end.

Section GetItems.

(** [models.Item] derives from [Base = declarative_base()], which the
    library builds.  For a name that the class body of [Item] does not
    bind, [Base_attr] tells whether [Item] inherits an attribute of that
    name and, if so, what ordering by its value does. *)
Variable Base_attr : string -> option (Result OrderKey).

(** [hasattr(models.Item, name)] / [getattr(models.Item, name)], as an
    ORDER BY operand. *)
Definition Item_getattr (name : string) : option (Result OrderKey) :=
  match Item_declared name with
  | Some a => Some (order_operand a)
  | None => Base_attr name
  end.

(** Lines 64-66: [models.Item.id] unless [sort_by] names an attribute. *)
Definition sort_col (sort_by : option string) : Result OrderKey :=
  match sort_by with
  | None => Ok (by_column col_id)
  | Some name =>
      match Item_getattr name with
      | Some r => r
      | None => Ok (by_column col_id)
      end
  end.

(** Lines 58-61: the WHERE clause, present when [q] is a non-empty
    string. *)
Definition matches (q : option string) (it : Item) : bool :=
  match q with
  | None => true
  | Some s =>
      if String.eqb s "" then true
      else
        let term := ("%" ++ s ++ "%")%string in
        Sql.holds (Sql.or (Sql.ilike (Some (Item_title it)) term)
                          (Sql.ilike (Item_description it) term))
  end.

Definition count_matching (db : DB) (q : option string) : Z :=
  Z.of_nat (List.length (filter (matches q) (items db))).

Definition is_desc (order : option string) : bool :=
  match order with
  | Some s => String.eqb s "desc"
  | None => false
  end.

Definition get_items (db : DB) (q : option string) (limit offset : Z)
           (sort_by order : option string) : Result (list Item * Z) :=
  match sort_col sort_by with
  | Raise e => Raise e
  | Ok key =>
      let rows := filter (fun r => matches q (fst r)) (join_Item_User db) in
      let sorted :=
        if is_desc order then Sql.order_desc key rows
        else Sql.order_asc key rows in
      let total := count_matching db q in
      let page := Sql.limit limit (Sql.offset offset sorted) in
      Ok (unique (map fst page), total)
  end.

End GetItems.

(** ** auth.py *)

Definition token_of (username : string) : string := ("token-" ++ username)%string.

Definition authenticate_user_and_get_token (db : DB) (username password : string)
  : option string :=
  let stored_match :=
    match get_user_by_username db username with
    | Some user =>
        String.eqb (User_hashed_password user) (fake_hash_password password)
    | None => false
    end in
  if stored_match then Some (token_of username)
  else if String.eqb username "alice" && String.eqb password "secret"
       then Some (token_of username)
       else None.

Definition invalid_credentials : Exception :=
  HTTPException 401 "Invalid authentication credentials".

Definition user_not_found : Exception := HTTPException 401 "User not found".

Definition get_current_user (db : DB) (token : string) : Result UserOut :=
  if String.eqb token "" || negb (Str.startswith token "token-")
  then Raise invalid_credentials
  else
    match nth_error (Str.split1 "-" token) 1 with
    | None => Raise IndexError
    | Some username =>
        match get_user_by_username db username with
        | None =>
            if String.eqb username "alice"
            then Ok {| UserOut_id := 0;
                       UserOut_username := "alice";
                       UserOut_full_name := Some "Alice Dev" |}
            else Raise user_not_found
        | Some user => UserOut_model_validate user
        end
    end.

(** ** main.py: the bodies of the route handlers

    A handler takes what FastAPI resolved for it: the parsed and validated
    parameters, the session ([db]) and, where the route depends on
    [auth.get_current_user], the user that call returned.  The parsing of
    the request and the serialisation of the returned value are FastAPI's
    and outside these definitions. *)

Module main.

(** The JSON object that [login_for_access_token] returns. *)
Record TokenResponse := mkTokenResponse {
  access_token : string;
  token_type : string
}.

Definition invalid_login : Exception := HTTPException 401 "Invalid credentials".

Definition item_not_found : Exception := HTTPException 404 "Item not found".

Definition not_found_or_not_owned : Exception :=
  HTTPException 404 "Item not found or not owned by you".

(** [if not token] holds for [None] and for the empty string. *)
Definition login_for_access_token (db : DB) (username password : string)
  : Result TokenResponse :=
  match authenticate_user_and_get_token db username password with
  | Some token =>
      if String.eqb token "" then Raise invalid_login
      else Ok {| access_token := token; token_type := "bearer" |}
  | None => Raise invalid_login
  end.

Definition protected_route (current_user : UserOut) : string :=
  ("Hello, " ++ UserOut_username current_user
   ++ ". You accessed a protected route.")%string.

(** Calls [crud.create_item] with the caller's username as owner. *)
Definition create_item (item_in : ItemCreate) (db : DB) (current_user : UserOut)
  : DB * Result Item :=
  create_item db item_in (UserOut_username current_user).

(** Calls [crud.get_item]. *)
Definition get_item (item_id : Z) (db : DB) : Result Item :=
  match get_item db item_id with
  | Some item => Ok item
  | None => Raise item_not_found
  end.

(** Calls [crud.update_item] with the caller's username. *)
Definition update_item (item_id : Z) (item_in : ItemUpdate) (db : DB)
           (current_user : UserOut) : DB * Result Item :=
  match update_item db item_id item_in (UserOut_username current_user) with
  | (db', Some item) => (db', Ok item)
  | (db', None) => (db', Raise not_found_or_not_owned)
  end.

(** Calls [crud.delete_item] with the caller's username; the value is the
    ["ok"] field of the JSON body. *)
Definition delete_item (item_id : Z) (db : DB) (current_user : UserOut)
  : DB * Result bool :=
  match delete_item db item_id (UserOut_username current_user) with
  | (db', true) => (db', Ok true)
  | (db', false) => (db', Raise not_found_or_not_owned)
  end.

Definition read_users_me (current_user : UserOut) : UserOut := current_user.

(** Calls [crud.create_user]. *)
Definition create_user (user_in : UserCreate) (db : DB) : DB * Result User :=
  create_user db user_in.

End main.

(** * Specification vocabulary *)

(** ** The constraints of the schema: primary keys and the unique index
       on [users.username] *)

Definition wf_db (db : DB) : Prop :=
  NoDup (map User_id (users db))
  /\ NoDup (map User_username (users db))
  /\ NoDup (map Item_id (items db)).

(** Every item row refers to a user row ([ForeignKey("users.id")]). *)
Definition fk_db (db : DB) : Prop :=
  forall it, In it (items db) ->
  exists u, In u (users db) /\ User_id u = Item_owner_id it.

(** A user row that a registration with username [u] and password [p]
    wrote: the hash is that of [p], and the fields pass [UserBase]. *)
Definition registered (db : DB) (u p : string) : Prop :=
  exists user,
    In user (users db)
    /\ User_username user = u
    /\ User_hashed_password user = fake_hash_password p
    /\ UserBase_valid u (User_full_name user) = true.

(** No stored row has username [u] together with the hash of [p]. *)
Definition no_stored_match (db : DB) (u p : string) : Prop :=
  forall user, In user (users db) -> User_username user = u ->
               User_hashed_password user <> fake_hash_password p.

(** The term occurs in the text, letter case of [A-Z] aside. *)
Definition occurs_ignoring_case (q text : string) : bool :=
  Str.contains (Str.lower q) (Str.lower text).

(** The wildcards of LIKE. *)
Definition wildcard (c : ascii) : bool := Ascii.eqb c "%" || Ascii.eqb c "_".

Definition wildcard_free (q : string) : bool :=
  Str.forallb (fun c => negb (wildcard c)) q.

(** Every stored title passes the constraints of [ItemBase.title]. *)
Definition title_rule (db : DB) : Prop :=
  forall it, In it (items db) -> ItemBase_title_valid (Item_title it) = true.

(** The databases that the store operations build from the empty one. *)
Inductive reachable : DB -> Prop :=
| reach_empty : reachable empty_db
| reach_create_user db user_in :
    reachable db -> reachable (fst (create_user db user_in))
| reach_create_item db item_in owner_username :
    reachable db -> reachable (fst (create_item db item_in owner_username))
| reach_update_item db item_id item_in owner_username :
    reachable db ->
    reachable (fst (update_item db item_id item_in owner_username))
| reach_delete_item db item_id owner_username :
    reachable db -> reachable (fst (delete_item db item_id owner_username)).

(** ** Sample data *)

Definition bob : User :=
  {| User_id := 1; User_username := "bob"; User_full_name := None;
     User_hashed_password := "fakehashedhunter22" |}.

Definition carol : User :=
  {| User_id := 2; User_username := "carol-ann"; User_full_name := Some "Carol";
     User_hashed_password := "fakehashedpa-ss-word" |}.

Definition widget : Item :=
  {| Item_id := 1; Item_title := "Blue Widget"; Item_description := None;
     Item_owner_id := 1 |}.

Definition sample_db : DB := {| users := [bob; carol]; items := [widget] |}.

Definition stored_alice : User :=
  {| User_id := 1; User_username := "alice"; User_full_name := None;
     User_hashed_password := "fakehashedhunter22" |}.

Definition alice_db : DB := {| users := [stored_alice]; items := [] |}.

Definition banned_patch : ItemUpdate :=
  {| ItemUpdate_title := Some "BadWord deluxe"; ItemUpdate_description := None |}.

Definition markup_patch : ItemUpdate :=
  {| ItemUpdate_title := Some "<b>Widget</b>"; ItemUpdate_description := None |}.

(** A database in which a user has registered the username "alice". *)
Definition alice_widget : Item :=
  {| Item_id := 1; Item_title := "Alice's Widget"; Item_description := None;
     Item_owner_id := 1 |}.

Definition alice_items_db : DB :=
  {| users := [stored_alice]; items := [alice_widget] |}.

(** A database built by the operations alone. *)
Definition built_db : DB :=
  fst (create_item
         (fst (create_user empty_db (mkUserCreate "erin" None "s3cretpw")))
         (mkItemCreate "First item" None) "erin").

(** Two neighbours of a page sorted on column [c]: in ascending key
    order, or in descending key order when [order] is ["desc"]. *)
Definition in_order (c : Column) (order : option string) (a b : Item) : Prop :=
  if is_desc order
  then Sql.leb (column_value c b) (column_value c a) = true
  else Sql.leb (column_value c a) (column_value c b) = true.

(** A database with three items of two owners. *)
Definition apple_pie : Item :=
  {| Item_id := 2; Item_title := "apple pie"; Item_description := Some "Sweet";
     Item_owner_id := 2 |}.

Definition zebra_mug : Item :=
  {| Item_id := 3; Item_title := "Zebra mug"; Item_description := None;
     Item_owner_id := 1 |}.

Definition shelf_db : DB :=
  {| users := [bob; carol]; items := [widget; apple_pie; zebra_mug] |}.

(** * Properties *)

(** ** Keys *)

Lemma next_id_above (ids : list Z) (x : Z) : In x ids -> x < next_id ids.
Proof.
  unfold next_id. induction ids as [|y ids IH]; simpl; [tauto|].
  intros [->|Hin]; [lia|]. specialize (IH Hin). lia.
Qed.

Lemma next_id_fresh (ids : list Z) : ~ In (next_id ids) ids.
Proof. intros Hin. apply next_id_above in Hin. lia. Qed.

Lemma NoDup_key_inj {A K} (key : A -> K) (l : list A) (x y : A) :
  NoDup (map key l) -> In x l -> In y l -> key x = key y -> x = y.
Proof.
  induction l as [|a l IH]; simpl; [tauto|].
  intros Hnd Hx Hy Hk. inversion Hnd as [|? ? Hnotin Hnd']; subst.
  destruct Hx as [->|Hx], Hy as [->|Hy]; auto.
  - exfalso. apply Hnotin. rewrite Hk. now apply in_map.
  - exfalso. apply Hnotin. rewrite <- Hk. now apply in_map.
Qed.

Lemma NoDup_snoc {K} (l : list K) (k : K) :
  NoDup l -> ~ In k l -> NoDup (l ++ [k]).
Proof.
  intros Hnd Hk. induction Hnd as [|x l Hx Hnd IH]; simpl.
  - constructor; [tauto|constructor].
  - constructor.
    + rewrite in_app_iff. simpl. intros [H|[H|[]]]; [tauto|].
      subst. apply Hk. now left.
    + apply IH. intros H. apply Hk. now right.
Qed.

(** ** The constraints of the schema *)

Lemma wf_empty_db : wf_db empty_db /\ fk_db empty_db.
Proof.
  split; [repeat split; constructor|]. intros it [].
Qed.

Lemma get_user_by_username_Some (db : DB) (name : string) (u : User) :
  get_user_by_username db name = Some u ->
  In u (users db) /\ User_username u = name.
Proof.
  unfold get_user_by_username. intros H. apply find_some in H.
  destruct H as [Hin Heq]. apply String.eqb_eq in Heq. auto.
Qed.

Lemma get_user_by_username_None (db : DB) (name : string) :
  get_user_by_username db name = None ->
  forall u, In u (users db) -> User_username u <> name.
Proof.
  unfold get_user_by_username. intros H u Hin Heq.
  pose proof (find_none _ _ H u Hin) as Hf. simpl in Hf.
  apply String.eqb_neq in Hf. contradiction.
Qed.

Lemma get_user_by_username_unique (db : DB) (u : User) :
  wf_db db -> In u (users db) ->
  get_user_by_username db (User_username u) = Some u.
Proof.
  intros (_ & Hnames & _) Hin.
  destruct (get_user_by_username db (User_username u)) as [v|] eqn:Hget.
  - apply get_user_by_username_Some in Hget. destruct Hget as [Hv Hname].
    f_equal. now apply (NoDup_key_inj User_username (users db)).
  - exfalso. now apply (get_user_by_username_None _ _ Hget u).
Qed.

Lemma existsb_username_false (db : DB) (name : string) :
  existsb (fun u => String.eqb (User_username u) name) (users db) = false ->
  ~ In name (map User_username (users db)).
Proof.
  intros Hex Hin. apply in_map_iff in Hin. destruct Hin as (u & Hname & Hin).
  assert (existsb (fun u => String.eqb (User_username u) name) (users db) = true)
    as Htrue.
  { apply existsb_exists. exists u. split; [assumption|]. now apply String.eqb_eq. }
  congruence.
Qed.

Lemma create_user_wf (db : DB) (user_in : UserCreate) :
  wf_db db -> fk_db db ->
  wf_db (fst (create_user db user_in)) /\ fk_db (fst (create_user db user_in)).
Proof.
  intros Hwf Hfk. unfold create_user.
  destruct (existsb _ _) eqn:Hex; simpl; [auto|].
  destruct Hwf as (Hids & Hnames & Hitems). split.
  - repeat split; simpl; try assumption; rewrite map_app; simpl.
    + apply NoDup_snoc; [assumption|apply next_id_fresh].
    + apply NoDup_snoc; [assumption|now apply existsb_username_false].
  - intros it Hin. destruct (Hfk it Hin) as (u & Hu & Hid).
    exists u. simpl. rewrite in_app_iff. auto.
Qed.

Lemma create_item_wf (db : DB) (item_in : ItemCreate) (owner_username : string) :
  wf_db db -> fk_db db ->
  wf_db (fst (create_item db item_in owner_username))
  /\ fk_db (fst (create_item db item_in owner_username)).
Proof.
  intros Hwf Hfk. unfold create_item.
  destruct (get_user_by_username db owner_username) as [owner|] eqn:Hget;
    simpl; [|auto].
  destruct Hwf as (Hids & Hnames & Hitems). split.
  - repeat split; simpl; try assumption. rewrite map_app. simpl.
    apply NoDup_snoc; [assumption|apply next_id_fresh].
  - intros it. simpl. rewrite in_app_iff. intros [Hin|[<-|[]]].
    + now apply Hfk.
    + simpl. exists owner. split; [|reflexivity].
      now apply get_user_by_username_Some in Hget.
Qed.

(** ** The owner-scoped query *)

Lemma in_join_Item_User (db : DB) (it : Item) (u : User) :
  In (it, u) (join_Item_User db) <->
  In it (items db) /\ In u (users db) /\ User_id u = Item_owner_id it.
Proof.
  unfold join_Item_User. rewrite in_flat_map. split.
  - intros (it0 & Hit0 & Hin). apply in_map_iff in Hin.
    destruct Hin as (u0 & Heq & Hu0). inversion Heq; subst.
    apply filter_In in Hu0. destruct Hu0 as [Hu0 Hid].
    apply Z.eqb_eq in Hid. auto.
  - intros (Hit & Hu & Hid). exists it. split; [assumption|].
    apply in_map_iff. exists u. split; [reflexivity|].
    apply filter_In. split; [assumption|]. now apply Z.eqb_eq.
Qed.

Lemma select_owned_Some (db : DB) (item_id : Z) (name : string) (it : Item) :
  select_owned db item_id name = Some it ->
  In it (items db) /\ Item_id it = item_id
  /\ exists u, In u (users db) /\ User_id u = Item_owner_id it
               /\ User_username u = name.
Proof.
  unfold select_owned. intros H.
  assert (In it (map fst
            (filter (fun r => (Item_id (fst r) =? item_id)
                              && String.eqb (User_username (snd r)) name)
                    (join_Item_User db)))) as Hin.
  { destruct (map fst _) as [|x l]; simpl in H; [discriminate|].
    inversion H. now left. }
  apply in_map_iff in Hin. destruct Hin as ([it0 u] & Hfst & Hin).
  simpl in Hfst. subst it0. apply filter_In in Hin. destruct Hin as [Hj Hc].
  simpl in Hc. apply andb_true_iff in Hc. destruct Hc as [Hid Hname].
  apply Z.eqb_eq in Hid. apply String.eqb_eq in Hname.
  apply in_join_Item_User in Hj. destruct Hj as (Hit & Hu & Hfk).
  repeat split; try assumption. exists u. auto.
Qed.

Lemma select_owned_None (db : DB) (item_id : Z) (name : string) :
  select_owned db item_id name = None ->
  forall it u, In it (items db) -> In u (users db) ->
               User_id u = Item_owner_id it -> Item_id it = item_id ->
               User_username u <> name.
Proof.
  unfold select_owned. intros H it u Hit Hu Hfk Hid Hname.
  assert (In it (map fst
            (filter (fun r => (Item_id (fst r) =? item_id)
                              && String.eqb (User_username (snd r)) name)
                    (join_Item_User db)))) as Hin.
  { apply in_map_iff. exists (it, u). split; [reflexivity|].
    apply filter_In. split; [now apply in_join_Item_User|].
    simpl. apply andb_true_iff. split;
      [now apply Z.eqb_eq|now apply String.eqb_eq]. }
  destruct (map fst _); simpl in H; [destruct Hin|discriminate].
Qed.

(** With the keys unique, the query finds exactly the item of that id
    whose owner row carries that username. *)
Lemma select_owned_owner (db : DB) (it : Item) (u : User) :
  wf_db db -> In it (items db) -> In u (users db) ->
  Item_owner_id it = User_id u ->
  select_owned db (Item_id it) (User_username u) = Some it.
Proof.
  intros (_ & _ & Hitems) Hit Hu Hfk.
  destruct (select_owned db (Item_id it) (User_username u)) as [it'|] eqn:Hsel.
  - apply select_owned_Some in Hsel. destruct Hsel as (Hit' & Hid & _).
    f_equal. now apply (NoDup_key_inj Item_id (items db)).
  - exfalso.
    now apply (select_owned_None _ _ _ Hsel it u Hit Hu (eq_sym Hfk) eq_refl).
Qed.

Lemma select_owned_foreign (db : DB) (it : Item) (u : User) (caller : string) :
  wf_db db -> In it (items db) -> In u (users db) ->
  Item_owner_id it = User_id u -> User_username u <> caller ->
  select_owned db (Item_id it) caller = None.
Proof.
  intros (Hids & _ & Hitems) Hit Hu Hfk Hne.
  destruct (select_owned db (Item_id it) caller) as [it'|] eqn:Hsel;
    [|reflexivity].
  exfalso. apply select_owned_Some in Hsel.
  destruct Hsel as (Hit' & Hid & u' & Hu' & Hfk' & Hname).
  assert (it' = it) by now apply (NoDup_key_inj Item_id (items db)).
  subst it'.
  assert (u' = u)
    by (apply (NoDup_key_inj User_id (users db)); auto; congruence).
  subst u'. contradiction.
Qed.

Lemma select_owned_missing (db : DB) (item_id : Z) (caller : string) :
  (forall it, In it (items db) -> Item_id it <> item_id) ->
  select_owned db item_id caller = None.
Proof.
  intros Hmiss.
  destruct (select_owned db item_id caller) as [it|] eqn:Hsel; [|reflexivity].
  exfalso. apply select_owned_Some in Hsel. destruct Hsel as (Hit & Hid & _).
  now apply (Hmiss it).
Qed.

(** ** Update and delete keep the constraints *)

Lemma map_Item_id_replace (item' : Item) (k : Z) (l : list Item) :
  Item_id item' = k ->
  map Item_id (map (fun it => if Item_id it =? k then item' else it) l)
  = map Item_id l.
Proof.
  intros Hk. induction l as [|x l IH]; simpl; [reflexivity|].
  rewrite IH. f_equal.
  destruct (Item_id x =? k) eqn:E; [|reflexivity].
  apply Z.eqb_eq in E. congruence.
Qed.

Lemma NoDup_map_filter {A K} (key : A -> K) (p : A -> bool) (l : list A) :
  NoDup (map key l) -> NoDup (map key (filter p l)).
Proof.
  induction l as [|x l IH]; simpl; [auto|].
  intros Hnd. inversion Hnd as [|? ? Hnotin Hnd']; subst.
  destruct (p x); simpl; [|auto].
  constructor; [|auto].
  intros Hin. apply Hnotin. apply in_map_iff in Hin.
  destruct Hin as (y & Hk & Hy). apply filter_In in Hy.
  apply in_map_iff. exists y. tauto.
Qed.

Lemma update_item_wf (db : DB) (item_id : Z) (item_in : ItemUpdate) (name : string) :
  wf_db db -> fk_db db ->
  wf_db (fst (update_item db item_id item_in name))
  /\ fk_db (fst (update_item db item_id item_in name)).
Proof.
  intros Hwf Hfk. unfold update_item.
  destruct (select_owned db item_id name) as [item|] eqn:Hsel; simpl; [|auto].
  destruct Hwf as (Hids & Hnames & Hitems).
  apply select_owned_Some in Hsel. destruct Hsel as (Hit & _ & _). split.
  - repeat split; simpl; try assumption.
    now rewrite map_Item_id_replace.
  - intros it. simpl. rewrite in_map_iff. intros (x & Hx & Hin).
    destruct (Item_id x =? Item_id item); subst it; [|now apply Hfk].
    simpl. now apply Hfk.
Qed.

Lemma delete_item_wf (db : DB) (item_id : Z) (name : string) :
  wf_db db -> fk_db db ->
  wf_db (fst (delete_item db item_id name))
  /\ fk_db (fst (delete_item db item_id name)).
Proof.
  intros Hwf Hfk. unfold delete_item.
  destruct (select_owned db item_id name) as [item|]; simpl; [|auto].
  destruct Hwf as (Hids & Hnames & Hitems). split.
  - repeat split; simpl; try assumption. now apply NoDup_map_filter.
  - intros it. simpl. rewrite filter_In. intros [Hin _]. now apply Hfk.
Qed.

(** Every database that the operations build satisfies the constraints. *)
Lemma reachable_wf (db : DB) : reachable db -> wf_db db /\ fk_db db.
Proof.
  induction 1 as [|db user_in _ [Hwf Hfk]|db item_in name _ [Hwf Hfk]
                  |db item_id item_in name _ [Hwf Hfk]
                  |db item_id name _ [Hwf Hfk]].
  - apply wf_empty_db.
  - now apply create_user_wf.
  - now apply create_item_wf.
  - now apply update_item_wf.
  - now apply delete_item_wf.
Qed.

(** ** The sample database *)

Lemma sample_db_wf : wf_db sample_db.
Proof.
  repeat split; simpl; repeat constructor; simpl; intuition discriminate.
Defined.

(** C1. On a database that satisfies the key constraints, for an item
    owned by one user and a caller with another username, [update_item]
    and [delete_item] return [None] and [False] and leave the database as
    it is: the very results they give for an id that no item has. *)
Theorem update_delete_foreign_as_missing
        (db : DB) (item : Item) (owner : User) (caller : string)
        (patch : ItemUpdate) (missing : Z) :
  wf_db db ->
  In item (items db) -> In owner (users db) ->
  Item_owner_id item = User_id owner ->
  User_username owner <> caller ->
  (forall it, In it (items db) -> Item_id it <> missing) ->
  update_item db (Item_id item) patch caller = (db, None)
  /\ delete_item db (Item_id item) caller = (db, false)
  /\ update_item db (Item_id item) patch caller = update_item db missing patch caller
  /\ delete_item db (Item_id item) caller = delete_item db missing caller.
Proof.
  intros Hwf Hit Hu Hfk Hne Hmiss.
  pose proof (select_owned_foreign db item owner caller Hwf Hit Hu Hfk Hne) as Hf.
  pose proof (select_owned_missing db missing caller Hmiss) as Hm.
  unfold update_item, delete_item. rewrite Hf, Hm. auto.
Qed.

Lemma update_delete_foreign_as_missing_witness :
  update_item sample_db 1 (mkItemUpdate (Some "Mine now") None) "carol-ann"
  = (sample_db, None)
  /\ delete_item sample_db 1 "carol-ann" = (sample_db, false)
  /\ update_item sample_db 1 (mkItemUpdate (Some "Mine now") None) "carol-ann"
     = update_item sample_db 7 (mkItemUpdate (Some "Mine now") None) "carol-ann"
  /\ delete_item sample_db 1 "carol-ann" = delete_item sample_db 7 "carol-ann".
Proof.
  apply (update_delete_foreign_as_missing sample_db widget bob "carol-ann"
           (mkItemUpdate (Some "Mine now") None) 7).
  - exact sample_db_wf.
  - simpl. auto.
  - simpl. auto.
  - reflexivity.
  - simpl. discriminate.
  - simpl. intros it [<-|[]]. simpl. discriminate.
Defined.

Lemma get_item_replaced (item' : Item) (l : list Item) :
  In (Item_id item') (map Item_id l) ->
  find (fun it => Item_id it =? Item_id item')
       (map (fun it => if Item_id it =? Item_id item' then item' else it) l)
  = Some item'.
Proof.
  induction l as [|x l IH]; simpl; [tauto|].
  destruct (Item_id x =? Item_id item') eqn:E.
  - intros _. now rewrite Z.eqb_refl.
  - rewrite E. intros [Hx|Hin]; [|auto].
    apply Z.eqb_neq in E. congruence.
Qed.

(** C9. On a database that satisfies the key constraints, [update_item]
    by the owner of an item returns the item with the same id and the
    same owner; a field that the patch leaves out ([None]) keeps its
    value, a field that the patch gives takes the given value; the
    returned item is the row stored under that id, and every other row
    and every user row is unchanged. *)
Theorem update_item_partial_patch
        (db : DB) (item : Item) (owner : User) (patch : ItemUpdate) :
  wf_db db ->
  In item (items db) -> In owner (users db) ->
  Item_owner_id item = User_id owner ->
  exists db' item',
    update_item db (Item_id item) patch (User_username owner) = (db', Some item')
    /\ Item_id item' = Item_id item
    /\ Item_owner_id item' = Item_owner_id item
    /\ (ItemUpdate_title patch = None -> Item_title item' = Item_title item)
    /\ (ItemUpdate_description patch = None ->
        Item_description item' = Item_description item)
    /\ (forall t, ItemUpdate_title patch = Some t -> Item_title item' = t)
    /\ (forall d, ItemUpdate_description patch = Some d ->
                  Item_description item' = Some d)
    /\ get_item db' (Item_id item) = Some item'
    /\ (forall other, Item_id other <> Item_id item ->
                      (In other (items db') <-> In other (items db)))
    /\ users db' = users db.
Proof.
  intros Hwf Hit Hu Hfk.
  pose proof (select_owned_owner db item owner Hwf Hit Hu Hfk) as Hsel.
  unfold update_item. rewrite Hsel.
  eexists. eexists. split; [reflexivity|].
  unfold apply_patch. simpl.
  repeat split.
  - intros ->. reflexivity.
  - intros ->. reflexivity.
  - intros t ->. reflexivity.
  - intros d ->. reflexivity.
  - unfold get_item. simpl.
    apply (get_item_replaced (apply_patch item patch)). simpl.
    now apply in_map.
  - rewrite in_map_iff. intros (x & Hx & Hin).
    destruct (Item_id x =? Item_id item); subst other; [|assumption].
    simpl in H. contradiction.
  - intros Hin. apply in_map_iff. exists other. split; [|assumption].
    apply Z.eqb_neq in H. now rewrite H.
Qed.

Lemma update_item_partial_patch_witness :
  exists db' item',
    update_item sample_db 1 (mkItemUpdate None (Some "now with notes")) "bob"
    = (db', Some item')
    /\ Item_id item' = 1
    /\ Item_owner_id item' = 1
    /\ Item_title item' = "Blue Widget"
    /\ Item_description item' = Some "now with notes".
Proof.
  destruct (update_item_partial_patch sample_db widget bob
              (mkItemUpdate None (Some "now with notes")) sample_db_wf)
    as (db' & item' & Hupd & Hid & Hown & Htitle & _ & _ & Hdesc & _).
  - simpl. auto.
  - simpl. auto.
  - reflexivity.
  - exists db', item'. repeat split; auto.
Defined.

Lemma find_snoc_fresh {A} (p : A -> bool) (l : list A) (x : A) :
  (forall y, In y l -> p y = false) -> p x = true ->
  find p (l ++ [x]) = Some x.
Proof.
  intros Hl Hx. induction l as [|y l IH]; simpl.
  - now rewrite Hx.
  - rewrite (Hl y) by now left. apply IH. intros z Hz. apply Hl. now right.
Qed.

(** C8. [create_item] raises [ValueError("owner not found")] and leaves
    the database as it is when no user row has the owner's username; when
    a row has it, [create_item] appends one item row, returns it, and the
    row's [owner_id] is the id of that user.  The fallback identity is a
    case of the first kind: with no stored row for it, its token resolves
    to a caller whose [create_item] raises. *)
Theorem create_item_owner_resolution
        (db : DB) (item_in : ItemCreate) (owner_username : string) :
  (get_user_by_username db owner_username = None ->
   create_item db item_in owner_username
   = (db, Raise (ValueError "owner not found")))
  /\ (forall owner,
        get_user_by_username db owner_username = Some owner ->
        exists item,
          create_item db item_in owner_username
          = ({| users := users db; items := items db ++ [item] |}, Ok item)
          /\ Item_owner_id item = User_id owner
          /\ In owner (users db)
          /\ User_username owner = owner_username
          /\ Item_title item = ItemCreate_title item_in
          /\ Item_description item = ItemCreate_description item_in
          /\ get_item (fst (create_item db item_in owner_username)) (Item_id item)
             = Some item)
  /\ (get_user_by_username db "alice" = None ->
      exists caller,
        get_current_user db (token_of "alice") = Ok caller
        /\ UserOut_username caller = "alice"
        /\ create_item db item_in (UserOut_username caller)
           = (db, Raise (ValueError "owner not found"))).
Proof.
  unfold create_item. repeat split.
  - intros ->. reflexivity.
  - intros owner Hget. rewrite Hget. eexists. split; [reflexivity|].
    apply get_user_by_username_Some in Hget. destruct Hget as [Hin Hname].
    simpl. repeat split; try assumption.
    unfold get_item. simpl. apply find_snoc_fresh.
    + intros y Hy. simpl. apply Z.eqb_neq. intros Heq.
      apply (next_id_fresh (map Item_id (items db))).
      rewrite <- Heq. now apply in_map.
    + simpl. apply Z.eqb_refl.
  - intros Hget. eexists. unfold get_current_user. simpl.
    rewrite Hget. simpl. split; [reflexivity|]. split; [reflexivity|].
    simpl. now rewrite Hget.
Qed.

Lemma create_item_owner_resolution_witness :
  create_item sample_db (mkItemCreate "Red Gadget" None) "alice"
  = (sample_db, Raise (ValueError "owner not found"))
  /\ (exists item,
        create_item sample_db (mkItemCreate "Red Gadget" None) "carol-ann"
        = ({| users := users sample_db; items := items sample_db ++ [item] |},
           Ok item)
        /\ Item_owner_id item = 2)
  /\ (exists caller,
        get_current_user sample_db (token_of "alice") = Ok caller
        /\ create_item sample_db (mkItemCreate "Red Gadget" None)
                       (UserOut_username caller)
           = (sample_db, Raise (ValueError "owner not found"))).
Proof.
  split; [|split].
  - apply (proj1 (create_item_owner_resolution
                    sample_db (mkItemCreate "Red Gadget" None) "alice")).
    reflexivity.
  - destruct (proj1 (proj2 (create_item_owner_resolution
                              sample_db (mkItemCreate "Red Gadget" None)
                              "carol-ann")) carol eq_refl)
      as (item & Hc & Hown & _).
    exists item. split; [exact Hc|exact Hown].
  - destruct (proj2 (proj2 (create_item_owner_resolution
                              sample_db (mkItemCreate "Red Gadget" None)
                              "alice")) eq_refl)
      as (caller & Hres & _ & Hc).
    exists caller. split; [exact Hres|exact Hc].
Defined.

(** ** Tokens *)

Lemma create_user_registered (db db' : DB) (user_in : UserCreate) (user : User) :
  UserCreate_valid user_in = true ->
  create_user db user_in = (db', Ok user) ->
  registered db' (UserCreate_username user_in) (UserCreate_password user_in).
Proof.
  unfold create_user, UserCreate_valid. intros Hvalid Hc.
  destruct (existsb _ _); [discriminate|].
  inversion Hc; subst; clear Hc.
  apply andb_true_iff in Hvalid. destruct Hvalid as [Hbase _].
  eexists. simpl. split; [apply in_app_iff; right; left; reflexivity|].
  simpl. auto.
Qed.

Lemma split1_token_of (u : string) :
  Str.split1 "-" (token_of u) = ["token"; u].
Proof. reflexivity. Qed.

Lemma startswith_token_of (u : string) :
  Str.startswith (token_of u) "token-" = true.
Proof. reflexivity. Qed.

(** The stored row of a registered user decides both calls. *)
Lemma stored_user_token (db : DB) (u p : string) :
  wf_db db -> registered db u p ->
  authenticate_user_and_get_token db u p = Some (token_of u)
  /\ exists out, get_current_user db (token_of u) = Ok out
                 /\ UserOut_username out = u.
Proof.
  intros Hwf (user & Hin & Hname & Hhash & Hvalid).
  pose proof (get_user_by_username_unique db user Hwf Hin) as Hget.
  rewrite Hname in Hget. split.
  - unfold authenticate_user_and_get_token. rewrite Hget, Hhash.
    now rewrite String.eqb_refl.
  - unfold get_current_user.
    rewrite split1_token_of, startswith_token_of. simpl.
    rewrite Hget. unfold UserOut_model_validate. rewrite Hname, Hvalid.
    eexists. split; reflexivity.
Qed.

(** C2. On a database that satisfies the key constraints, for a
    registered user with username [u] and password [p]:
    [authenticate_user_and_get_token] returns the token ["token-" ++ u];
    splitting that token once at its first ['-'] gives [u] as second
    part, whatever characters [u] has; and [get_current_user] on the
    token returns a user whose username is [u]. *)
Theorem token_resolves_to_username (db : DB) (u p : string) :
  wf_db db ->
  registered db u p ->
  authenticate_user_and_get_token db u p = Some (token_of u)
  /\ nth_error (Str.split1 "-" (token_of u)) 1 = Some u
  /\ exists out, get_current_user db (token_of u) = Ok out
                 /\ UserOut_username out = u.
Proof.
  intros Hwf Hreg.
  destruct (stored_user_token db u p Hwf Hreg) as [Hauth Hres].
  split; [assumption|]. split; [reflexivity|assumption].
Qed.

Lemma sample_db_registered : registered sample_db "carol-ann" "pa-ss-word".
Proof.
  exists carol. simpl. repeat split. auto.
Defined.

Lemma token_resolves_to_username_witness :
  authenticate_user_and_get_token sample_db "carol-ann" "pa-ss-word"
  = Some "token-carol-ann"
  /\ nth_error (Str.split1 "-" "token-carol-ann") 1 = Some "carol-ann"
  /\ exists out, get_current_user sample_db "token-carol-ann" = Ok out
                 /\ UserOut_username out = "carol-ann".
Proof.
  exact (token_resolves_to_username sample_db "carol-ann" "pa-ss-word"
           sample_db_wf sample_db_registered).
Defined.

Lemma stored_match_false (db : DB) (u p : string) :
  no_stored_match db u p ->
  match get_user_by_username db u with
  | Some user => String.eqb (User_hashed_password user) (fake_hash_password p)
  | None => false
  end = false.
Proof.
  intros Hno. destruct (get_user_by_username db u) as [user|] eqn:Hget;
    [|reflexivity].
  apply get_user_by_username_Some in Hget. destruct Hget as [Hin Hname].
  apply String.eqb_neq. now apply Hno.
Qed.

(** C7. Whatever the database holds, when no stored row matches the pair
    ("alice", "secret") the call still returns the token of alice, and
    every other pair that no stored row matches gets [None]. *)
Theorem authenticate_fallback_pair (db : DB) :
  (no_stored_match db "alice" "secret" ->
   authenticate_user_and_get_token db "alice" "secret" = Some (token_of "alice"))
  /\ (forall u p,
        no_stored_match db u p ->
        (u, p) <> ("alice", "secret") ->
        authenticate_user_and_get_token db u p = None).
Proof.
  split.
  - intros Hno. unfold authenticate_user_and_get_token.
    now rewrite (stored_match_false _ _ _ Hno).
  - intros u p Hno Hne. unfold authenticate_user_and_get_token.
    rewrite (stored_match_false _ _ _ Hno).
    destruct (String.eqb_spec u "alice") as [->|]; [|reflexivity].
    destruct (String.eqb_spec p "secret") as [->|]; [|reflexivity].
    now contradiction Hne.
Qed.

Lemma authenticate_fallback_pair_witness :
  authenticate_user_and_get_token sample_db "alice" "secret" = Some "token-alice"
  /\ authenticate_user_and_get_token sample_db "alice" "Secret" = None
  /\ authenticate_user_and_get_token sample_db "bob" "secret" = None.
Proof.
  split; [|split].
  - apply (proj1 (authenticate_fallback_pair sample_db)).
    intros user [<-|[<-|[]]]; simpl; discriminate.
  - apply (proj2 (authenticate_fallback_pair sample_db) "alice" "Secret").
    + intros user [<-|[<-|[]]]; simpl; discriminate.
    + discriminate.
  - apply (proj2 (authenticate_fallback_pair sample_db) "bob" "secret").
    + intros user [<-|[<-|[]]]; simpl; discriminate.
    + discriminate.
Defined.

(** The fixed pair gets a token on every database. *)
Lemma authenticate_alice_secret (db : DB) :
  authenticate_user_and_get_token db "alice" "secret" = Some (token_of "alice").
Proof.
  unfold authenticate_user_and_get_token.
  now destruct (match get_user_by_username db "alice" with
                | Some user => _
                | None => false
                end).
Qed.

(** C10. When the stored row of username "alice" carries a hash other
    than that of "secret", the call with ("alice", "secret") still
    returns the token of alice: the comparison with the stored hash
    fails and the fixed pair is tested next. *)
Theorem authenticate_fallback_despite_stored_alice (db : DB) (user : User) :
  get_user_by_username db "alice" = Some user ->
  User_hashed_password user <> fake_hash_password "secret" ->
  authenticate_user_and_get_token db "alice" "secret" = Some (token_of "alice").
Proof.
  intros Hget Hne. unfold authenticate_user_and_get_token. rewrite Hget.
  apply String.eqb_neq in Hne. now rewrite Hne.
Qed.

Lemma authenticate_fallback_despite_stored_alice_witness :
  authenticate_user_and_get_token alice_db "alice" "hunter22" = Some "token-alice"
  /\ authenticate_user_and_get_token alice_db "alice" "secret" = Some "token-alice".
Proof.
  split; [reflexivity|].
  apply (authenticate_fallback_despite_stored_alice alice_db stored_alice).
  - reflexivity.
  - simpl. discriminate.
Defined.

(** ** The list query *)

(** C6. The total that [get_items] returns is the number of item rows
    that match the search term, counted over the whole table: it is the
    same for every [limit] and [offset], and whether the call raises does
    not depend on them either. *)
Theorem get_items_total_ignores_page
        (Base_attr : string -> option (Result OrderKey)) (db : DB)
        (q sort_by order : option string) (limit offset : Z) :
  Result_map snd (get_items Base_attr db q limit offset sort_by order)
  = Result_map (fun _ => Z.of_nat (List.length (filter (matches q) (items db))))
               (sort_col Base_attr sort_by)
  /\ (forall limit' offset',
        Result_map snd (get_items Base_attr db q limit offset sort_by order)
        = Result_map snd (get_items Base_attr db q limit' offset' sort_by order))
  /\ (exists page,
        get_items Base_attr db q limit offset (Some "id") order
        = Ok (page, Z.of_nat (List.length (filter (matches q) (items db))))).
Proof.
  unfold get_items, count_matching. repeat split.
  - now destruct (sort_col Base_attr sort_by).
  - intros limit' offset'. now destruct (sort_col Base_attr sort_by).
  - simpl. eexists. reflexivity.
Qed.

(** A [sort_by] that is no attribute of [models.Item], like no [sort_by]
    at all, gives the result of [sort_by = "id"]. *)
Lemma get_items_unknown_sort_by
      (Base_attr : string -> option (Result OrderKey)) (db : DB)
      (q order : option string) (limit offset : Z) (name : string) :
  Item_getattr Base_attr name = None ->
  get_items Base_attr db q limit offset (Some name) order
  = get_items Base_attr db q limit offset (Some "id") order
  /\ get_items Base_attr db q limit offset None order
     = get_items Base_attr db q limit offset (Some "id") order.
Proof.
  intros Hno. unfold get_items, sort_col. rewrite Hno. split; reflexivity.
Qed.

(** C4. [models.Item] has the attribute [__tablename__], the string
    ["items"], which is no column: with [sort_by = "__tablename__"] the
    guard of [hasattr] passes, the ORDER BY does not compile and
    [get_items] raises, where [sort_by = "id"] returns a page. *)
Theorem get_items_sort_by_tablename_raises
        (Base_attr : string -> option (Result OrderKey)) (db : DB)
        (q order : option string) (limit offset : Z) :
  get_items Base_attr db q limit offset (Some "__tablename__") order
  = Raise CompileError
  /\ exists page total,
       get_items Base_attr db q limit offset (Some "id") order = Ok (page, total).
Proof.
  split; [reflexivity|].
  unfold get_items. simpl. eexists. eexists. reflexivity.
Qed.

(** *** The search term as a LIKE pattern *)

Lemma lower_char_idem (c : ascii) :
  Str.lower_char (Str.lower_char c) = Str.lower_char c.
Proof. destruct c as [[] [] [] [] [] [] [] []]; reflexivity. Qed.

Lemma lower_char_percent (c : ascii) :
  Ascii.eqb (Str.lower_char c) "%" = Ascii.eqb c "%".
Proof. destruct c as [[] [] [] [] [] [] [] []]; reflexivity. Qed.

Lemma lower_char_underscore (c : ascii) :
  Ascii.eqb (Str.lower_char c) "_" = Ascii.eqb c "_".
Proof. destruct c as [[] [] [] [] [] [] [] []]; reflexivity. Qed.

Lemma lower_app (a b : string) :
  Str.lower (a ++ b) = (Str.lower a ++ Str.lower b)%string.
Proof. induction a as [|c a IH]; simpl; [reflexivity|]. now rewrite IH. Qed.

Lemma like_percent_unfold (p s : string) :
  Sql.like (String "%" p) s
  = Sql.like p s
    || match s with
       | EmptyString => false
       | String _ s' => Sql.like (String "%" p) s'
       end.
Proof. destruct s; reflexivity. Qed.

Lemma like_percent_all (s : string) : Sql.like "%" s = true.
Proof.
  induction s as [|c s IH]; [reflexivity|].
  rewrite like_percent_unfold. rewrite IH. apply orb_true_r.
Qed.

(** A wildcard-free term followed by [%] matches the texts that start
    with the term. *)
Lemma like_literal_then_percent (q s : string) :
  wildcard_free q = true ->
  Sql.like (Str.lower q ++ "%") (Str.lower s)
  = Str.startswith (Str.lower s) (Str.lower q).
Proof.
  revert s. induction q as [|c q IH]; intros s Hfree.
  - simpl. apply like_percent_all.
  - simpl in Hfree. apply andb_true_iff in Hfree. destruct Hfree as [Hc Hq].
    unfold wildcard in Hc. apply negb_true_iff in Hc.
    apply orb_false_iff in Hc. destruct Hc as [Hpct Hund].
    simpl. rewrite lower_char_percent, Hpct.
    destruct s as [|d s]; simpl; [reflexivity|].
    rewrite lower_char_underscore, Hund, !lower_char_idem. simpl.
    now rewrite IH.
Qed.

(** [%term%] with a wildcard-free term matches the texts in which the
    term occurs. *)
Lemma like_wildcard_free (q s : string) :
  wildcard_free q = true ->
  Sql.like (Str.lower ("%" ++ q ++ "%")) (Str.lower s) = occurs_ignoring_case q s.
Proof.
  intros Hfree. unfold occurs_ignoring_case.
  change (Str.lower ("%" ++ q ++ "%")) with (String "%" (Str.lower (q ++ "%"))).
  rewrite lower_app. change (Str.lower "%") with "%".
  induction s as [|d s IH].
  - rewrite like_percent_unfold.
    rewrite (like_literal_then_percent q "" Hfree). simpl.
    now rewrite orb_false_r.
  - rewrite like_percent_unfold.
    rewrite (like_literal_then_percent q (String d s) Hfree).
    change (Str.lower (String d s))
      with (String (Str.lower_char d) (Str.lower s)).
    cbv iota. rewrite IH. reflexivity.
Qed.

(** For a non-empty wildcard-free term the WHERE clause keeps the items
    in whose title or description the term occurs. *)
Lemma matches_wildcard_free (q : string) (it : Item) :
  wildcard_free q = true -> q <> "" ->
  matches (Some q) it
  = occurs_ignoring_case q (Item_title it)
    || match Item_description it with
       | Some d => occurs_ignoring_case q d
       | None => false
       end.
Proof.
  intros Hfree Hne. unfold matches. apply String.eqb_neq in Hne. rewrite Hne.
  unfold Sql.ilike. rewrite (like_wildcard_free q _ Hfree).
  destruct (Item_description it) as [d|].
  - rewrite (like_wildcard_free q d Hfree).
    now destruct (occurs_ignoring_case q (Item_title it)),
                 (occurs_ignoring_case q d).
  - now destruct (occurs_ignoring_case q (Item_title it)).
Qed.

(** C5. The search term is spliced into the LIKE pattern as it is, so
    its [_] and [%] act as wildcards: on the sample database the terms
    ["_"] and ["%"] return the item titled "Blue Widget", in whose title
    neither character occurs and which has no description; the term
    ["e_W"] returns it as well. *)
Theorem get_items_search_term_wildcards
        (Base_attr : string -> option (Result OrderKey)) :
  occurs_ignoring_case "_" (Item_title widget) = false
  /\ occurs_ignoring_case "%" (Item_title widget) = false
  /\ occurs_ignoring_case "e_W" (Item_title widget) = false
  /\ Item_description widget = None
  /\ get_items Base_attr sample_db (Some "_") 10 0 (Some "id") (Some "asc")
     = Ok ([widget], 1)
  /\ get_items Base_attr sample_db (Some "%") 10 0 (Some "id") (Some "asc")
     = Ok ([widget], 1)
  /\ get_items Base_attr sample_db (Some "e_W") 10 0 (Some "id") (Some "asc")
     = Ok ([widget], 1)
  /\ get_items Base_attr sample_db (Some "widget") 10 0 (Some "id") (Some "asc")
     = Ok ([widget], 1)
  /\ get_items Base_attr sample_db (Some "gadget") 10 0 (Some "id") (Some "asc")
     = Ok ([], 0).
Proof. repeat split. Qed.

(** ** The constraints on stored titles *)

Lemma create_item_title_rule (db : DB) (item_in : ItemCreate) (name : string) :
  title_rule db -> ItemCreate_valid item_in = true ->
  title_rule (fst (create_item db item_in name)).
Proof.
  intros Hrule Hvalid. unfold create_item.
  destruct (get_user_by_username db name); simpl; [|assumption].
  intros it. simpl. rewrite in_app_iff. intros [Hin|[<-|[]]]; [auto|].
  simpl. unfold ItemCreate_valid, ItemBase_valid in Hvalid.
  now apply andb_true_iff in Hvalid.
Qed.

Lemma delete_item_title_rule (db : DB) (item_id : Z) (name : string) :
  title_rule db -> title_rule (fst (delete_item db item_id name)).
Proof.
  intros Hrule. unfold delete_item.
  destruct (select_owned db item_id name); simpl; [|assumption].
  intros it. simpl. rewrite filter_In. intros [Hin _]. auto.
Qed.

(** An update keeps the rule when the patch has no title or a title that
    [ItemBase] accepts. *)
Lemma update_item_title_rule
      (db : DB) (item_id : Z) (item_in : ItemUpdate) (name : string) :
  title_rule db ->
  (forall t, ItemUpdate_title item_in = Some t -> ItemBase_title_valid t = true) ->
  title_rule (fst (update_item db item_id item_in name)).
Proof.
  intros Hrule Hpatch. unfold update_item.
  destruct (select_owned db item_id name) as [item|] eqn:Hsel; simpl;
    [|assumption].
  apply select_owned_Some in Hsel. destruct Hsel as (Hit & _).
  intros it. simpl. rewrite in_map_iff. intros (x & Hx & Hin).
  destruct (Item_id x =? Item_id item); subst it; [|auto].
  unfold apply_patch. simpl.
  destruct (ItemUpdate_title item_in) as [t|]; auto.
Qed.

(** C3. [ItemUpdate] checks the length of a title only.  On the sample
    database, whose titles pass the constraints of [ItemBase], the owner's
    update with the title "BadWord deluxe" and the one with the title
    "<b>Widget</b>" pass [ItemUpdate] and are stored, although the first
    title holds the banned word and the second has characters outside
    the class; [ItemCreate] refuses both titles. *)
Theorem update_item_stores_refused_titles :
  title_rule sample_db
  /\ ItemUpdate_valid banned_patch = true
  /\ ItemUpdate_valid markup_patch = true
  /\ ItemCreate_valid (mkItemCreate "BadWord deluxe" None) = false
  /\ ItemCreate_valid (mkItemCreate "<b>Widget</b>" None) = false
  /\ no_banned_words "BadWord deluxe" = false
  /\ title_pattern "<b>Widget</b>" = false
  /\ get_item (fst (update_item sample_db 1 banned_patch "bob")) 1
     = Some (mkItem 1 "BadWord deluxe" None 1)
  /\ get_item (fst (update_item sample_db 1 markup_patch "bob")) 1
     = Some (mkItem 1 "<b>Widget</b>" None 1)
  /\ ~ title_rule (fst (update_item sample_db 1 banned_patch "bob"))
  /\ ~ title_rule (fst (update_item sample_db 1 markup_patch "bob")).
Proof.
  split.
  { intros it [<-|[]]. reflexivity. }
  repeat split.
  - intros Hrule.
    specialize (Hrule (mkItem 1 "BadWord deluxe" None 1) (or_introl eq_refl)).
    discriminate.
  - intros Hrule.
    specialize (Hrule (mkItem 1 "<b>Widget</b>" None 1) (or_introl eq_refl)).
    discriminate.
Qed.

(** ** Pages of the list query *)

Lemma insert_by_perm {A} (key : A -> Sql.value)
      (le : Sql.value -> Sql.value -> bool) (x : A) (l : list A) :
  Permutation (Sql.insert_by key le x l) (x :: l).
Proof.
  induction l as [|y l IH]; simpl; [reflexivity|].
  destruct (le (key x) (key y)); [reflexivity|].
  rewrite IH. apply perm_swap.
Qed.

Lemma order_asc_perm {A} (key : A -> Sql.value) (l : list A) :
  Permutation (Sql.order_asc key l) l.
Proof.
  unfold Sql.order_asc. induction l as [|x l IH]; simpl; [reflexivity|].
  rewrite insert_by_perm. now constructor.
Qed.

Lemma order_desc_perm {A} (key : A -> Sql.value) (l : list A) :
  Permutation (Sql.order_desc key l) l.
Proof.
  unfold Sql.order_desc. induction l as [|x l IH]; simpl; [reflexivity|].
  rewrite insert_by_perm. now constructor.
Qed.

Lemma filter_none {A} (p : A -> bool) (l : list A) :
  (forall y, In y l -> p y = false) -> filter p l = [].
Proof.
  induction l as [|x l IH]; simpl; [reflexivity|]. intros Hl.
  rewrite (Hl x) by now left. apply IH. intros y Hy. apply Hl. now right.
Qed.

Lemma filter_all {A} (p : A -> bool) (l : list A) :
  (forall y, In y l -> p y = true) -> filter p l = l.
Proof.
  induction l as [|x l IH]; simpl; [reflexivity|]. intros Hl.
  rewrite (Hl x) by now left. f_equal. apply IH. intros y Hy. apply Hl. now right.
Qed.

(** The primary key of [users] selects one row. *)
Lemma filter_User_id_unique (l : list User) (u : User) :
  NoDup (map User_id l) -> In u l ->
  filter (fun v => User_id v =? User_id u) l = [u].
Proof.
  induction l as [|a l IH]; simpl; [tauto|].
  intros Hnd Hin. inversion Hnd as [|? ? Hnotin Hnd']; subst.
  destruct Hin as [->|Hin].
  - rewrite Z.eqb_refl. f_equal. apply filter_none.
    intros y Hy. apply Z.eqb_neq. intros Heq. apply Hnotin.
    rewrite <- Heq. now apply in_map.
  - assert ((User_id a =? User_id u) = false) as ->.
    { apply Z.eqb_neq. intros Heq. apply Hnotin. rewrite Heq. now apply in_map. }
    now apply IH.
Qed.

(** Under the constraints the join pairs every item with its one owner. *)
Lemma map_fst_join_Item_User (db : DB) :
  wf_db db -> fk_db db -> map fst (join_Item_User db) = items db.
Proof.
  intros (Hids & _ & _) Hfk. unfold join_Item_User, fk_db in *.
  induction (items db) as [|it its IH]; simpl; [reflexivity|].
  rewrite map_app. rewrite IH by (intros x Hx; apply Hfk; now right).
  destruct (Hfk it (or_introl eq_refl)) as (u & Hu & Hid).
  rewrite <- Hid. rewrite (filter_User_id_unique _ u Hids Hu). reflexivity.
Qed.

Lemma map_fst_filter {A B} (p : A -> bool) (l : list (A * B)) :
  map fst (filter (fun r => p (fst r)) l) = filter p (map fst l).
Proof.
  induction l as [|r l IH]; simpl; [reflexivity|].
  destruct (p (fst r)); simpl; now rewrite IH.
Qed.

Lemma unique_NoDup (l : list Item) : NoDup (map Item_id l) -> unique l = l.
Proof.
  induction l as [|it l IH]; simpl; [reflexivity|].
  intros Hnd. inversion Hnd as [|? ? Hnotin Hnd']; subst.
  rewrite IH by assumption. f_equal. apply filter_all.
  intros y Hy. apply negb_true_iff. apply Z.eqb_neq. intros Heq.
  apply Hnotin. rewrite <- Heq. now apply in_map.
Qed.

Lemma NoDup_limit_offset {K} (n m : Z) (l : list K) :
  NoDup l -> NoDup (Sql.limit n (Sql.offset m l)).
Proof.
  intros Hnd. unfold Sql.limit, Sql.offset.
  assert (NoDup (skipn (Z.to_nat m) l)) as Hskip.
  { rewrite <- (firstn_skipn (Z.to_nat m) l) in Hnd.
    now apply NoDup_app_remove_l in Hnd. }
  destruct (n <? 0); [assumption|].
  rewrite <- (firstn_skipn (Z.to_nat n) (skipn (Z.to_nat m) l)) in Hskip.
  now apply NoDup_app_remove_r in Hskip.
Qed.

Lemma map_limit_offset {A B} (f : A -> B) (n m : Z) (l : list A) :
  map f (Sql.limit n (Sql.offset m l)) = Sql.limit n (Sql.offset m (map f l)).
Proof.
  unfold Sql.limit, Sql.offset. destruct (n <? 0).
  - now rewrite skipn_map.
  - now rewrite <- firstn_map, <- skipn_map.
Qed.

(** On a database that satisfies the constraints, a call that returns
    gives the items [offset .. offset + limit) of some ordering of the
    matching items, and the total is the number of matching items. *)
Lemma get_items_page
      (Base_attr : string -> option (Result OrderKey)) (db : DB)
      (q sort_by order : option string) (limit offset : Z)
      (page : list Item) (total : Z) :
  wf_db db -> fk_db db ->
  get_items Base_attr db q limit offset sort_by order = Ok (page, total) ->
  exists sorted,
    Permutation sorted (filter (matches q) (items db))
    /\ page = Sql.limit limit (Sql.offset offset sorted)
    /\ total = Z.of_nat (List.length sorted).
Proof.
  intros Hwf Hfk. unfold get_items.
  destruct (sort_col Base_attr sort_by) as [key|e]; [|discriminate].
  intros Hget. inversion Hget as [[Hpage Htotal]]. clear Hget.
  set (rows := filter (fun r => matches q (fst r)) (join_Item_User db)) in *.
  set (sorted := if is_desc order then Sql.order_desc key rows
                 else Sql.order_asc key rows) in *.
  assert (Permutation (map fst sorted) (filter (matches q) (items db))) as Hperm.
  { rewrite <- (map_fst_join_Item_User db Hwf Hfk), <- map_fst_filter.
    apply Permutation_map. unfold sorted.
    destruct (is_desc order); [apply order_desc_perm|apply order_asc_perm]. }
  exists (map fst sorted). split; [assumption|]. split.
  - rewrite map_limit_offset. apply unique_NoDup.
    rewrite map_limit_offset. apply NoDup_limit_offset.
    apply (Permutation_NoDup (Permutation_sym (Permutation_map Item_id Hperm))).
    apply NoDup_map_filter. now destruct Hwf as (_ & _ & Hitems).
  - unfold count_matching. now rewrite (Permutation_length Hperm).
Qed.

(** The size of a page: with [limit] and [offset] not negative, the
    matching items after the first [offset], at most [limit] of them. *)
Lemma get_items_page_length
      (Base_attr : string -> option (Result OrderKey)) (db : DB)
      (q sort_by order : option string) (limit offset : Z)
      (page : list Item) (total : Z) :
  wf_db db -> fk_db db -> 0 <= limit -> 0 <= offset ->
  get_items Base_attr db q limit offset sort_by order = Ok (page, total) ->
  Z.of_nat (List.length page) = Z.min limit (Z.max 0 (total - offset)).
Proof.
  intros Hwf Hfk Hlimit Hoffset Hget.
  destruct (get_items_page _ _ _ _ _ _ _ _ _ Hwf Hfk Hget)
    as (sorted & _ & -> & ->).
  unfold Sql.limit, Sql.offset.
  assert ((limit <? 0) = false) as -> by now apply Z.ltb_ge.
  rewrite length_firstn, length_skipn. lia.
Qed.

(** ** Registered users stay registered *)

Lemma registered_incl (db db' : DB) (u p : string) :
  incl (users db) (users db') -> registered db u p -> registered db' u p.
Proof.
  intros Hincl (user & Hin & Hrest). exists user. split; [|assumption].
  now apply Hincl.
Qed.

(** No store operation removes or changes a user row. *)
Lemma users_kept (db : DB) :
  (forall user_in, incl (users db) (users (fst (create_user db user_in))))
  /\ (forall item_in name, users (fst (create_item db item_in name)) = users db)
  /\ (forall item_id item_in name,
        users (fst (update_item db item_id item_in name)) = users db)
  /\ (forall item_id name, users (fst (delete_item db item_id name)) = users db).
Proof.
  repeat split.
  - intros user_in. unfold create_user.
    destruct (existsb _ _); simpl; [apply incl_refl|].
    now apply incl_appl, incl_refl.
  - intros item_in name. unfold create_item.
    now destruct (get_user_by_username db name).
  - intros item_id item_in name. unfold update_item.
    now destruct (select_owned db item_id name).
  - intros item_id name. unfold delete_item.
    now destruct (select_owned db item_id name).
Qed.

(** A registration that succeeds yields a database on which the token of
    the new user resolves, and keeps doing so after any later operation
    on the store. *)
Lemma registered_after (db1 db2 : DB) (u p : string) :
  registered db1 u p -> incl (users db1) (users db2) -> reachable db2 ->
  authenticate_user_and_get_token db2 u p = Some (token_of u)
  /\ exists out, get_current_user db2 (token_of u) = Ok out
                 /\ UserOut_username out = u.
Proof.
  intros Hreg Hincl Hreach.
  apply (registered_incl db1 db2 u p Hincl) in Hreg.
  destruct (reachable_wf db2 Hreach) as [Hwf _].
  now apply stored_user_token.
Qed.

(** * Further properties *)

(** ** Lookups after a write *)

Lemma find_app_split {A} (p : A -> bool) (l l' : list A) :
  find p (l ++ l')
  = match find p l with
    | Some x => Some x
    | None => find p l'
    end.
Proof.
  induction l as [|x l IH]; simpl; [reflexivity|]. now destruct (p x).
Qed.

Lemma existsb_find_none {A} (p : A -> bool) (l : list A) :
  existsb p l = false -> find p l = None.
Proof.
  induction l as [|x l IH]; simpl; [reflexivity|].
  destruct (p x); simpl; [discriminate|assumption].
Qed.

Lemma get_item_fresh (db : DB) (k : Z) :
  (forall it, In it (items db) -> Item_id it <> k) -> get_item db k = None.
Proof.
  intros Hfresh. unfold get_item.
  destruct (find _ _) as [it|] eqn:Hfind; [|reflexivity].
  apply find_some in Hfind. destruct Hfind as [Hin Hid].
  apply Z.eqb_eq in Hid. now destruct (Hfresh it Hin).
Qed.

Lemma get_item_unique (db : DB) (it : Item) :
  wf_db db -> In it (items db) -> get_item db (Item_id it) = Some it.
Proof.
  intros (_ & _ & Hitems) Hin. unfold get_item.
  destruct (find _ _) as [it'|] eqn:Hfind.
  - apply find_some in Hfind. destruct Hfind as [Hin' Hid].
    apply Z.eqb_eq in Hid. f_equal.
    now apply (NoDup_key_inj Item_id (items db)).
  - pose proof (find_none _ _ Hfind it Hin) as Hf. simpl in Hf.
    now rewrite Z.eqb_refl in Hf.
Qed.

Lemma find_replace_other (item' : Item) (k j : Z) (l : list Item) :
  Item_id item' = k -> j <> k ->
  find (fun it => Item_id it =? j)
       (map (fun it => if Item_id it =? k then item' else it) l)
  = find (fun it => Item_id it =? j) l.
Proof.
  intros Hk Hne. induction l as [|x l IH]; simpl; [reflexivity|].
  destruct (Item_id x =? k) eqn:E.
  - apply Z.eqb_eq in E.
    assert ((Item_id item' =? j) = false) as -> by (apply Z.eqb_neq; congruence).
    assert ((Item_id x =? j) = false) as -> by (apply Z.eqb_neq; congruence).
    assumption.
  - now rewrite IH.
Qed.

Lemma find_filter_other (k j : Z) (l : list Item) :
  j <> k ->
  find (fun it => Item_id it =? j)
       (filter (fun it => negb (Item_id it =? k)) l)
  = find (fun it => Item_id it =? j) l.
Proof.
  intros Hne. induction l as [|x l IH]; simpl; [reflexivity|].
  destruct (Item_id x =? k) eqn:E; simpl.
  - apply Z.eqb_eq in E.
    assert ((Item_id x =? j) = false) as -> by (apply Z.eqb_neq; congruence).
    assumption.
  - now rewrite IH.
Qed.

Lemma find_filter_same (k : Z) (l : list Item) :
  find (fun it => Item_id it =? k)
       (filter (fun it => negb (Item_id it =? k)) l) = None.
Proof.
  induction l as [|x l IH]; simpl; [reflexivity|].
  destruct (Item_id x =? k) eqn:E; simpl; [assumption|]. now rewrite E.
Qed.

(** X1. After [create_user] has succeeded, [get_user_by_username] finds
    the new row under its username; the row carries the hash of the
    password and an id above every older id; the lookup of every other
    username and the items are as before. *)
Theorem create_user_then_lookup
        (db db' : DB) (user_in : UserCreate) (user : User) :
  create_user db user_in = (db', Ok user) ->
  get_user_by_username db' (UserCreate_username user_in) = Some user
  /\ User_username user = UserCreate_username user_in
  /\ User_hashed_password user = fake_hash_password (UserCreate_password user_in)
  /\ (forall u, In u (users db) -> User_id u < User_id user)
  /\ (forall name, name <> UserCreate_username user_in ->
                   get_user_by_username db' name = get_user_by_username db name)
  /\ items db' = items db.
Proof.
  unfold create_user. destruct (existsb _ _) eqn:Hex; [discriminate|].
  intros Hc. inversion Hc; subst; clear Hc. simpl.
  unfold get_user_by_username. simpl. repeat split.
  - rewrite find_app_split, (existsb_find_none _ _ Hex). simpl.
    now rewrite String.eqb_refl.
  - intros u Hin. apply next_id_above. now apply in_map.
  - intros name Hne. rewrite find_app_split. simpl.
    apply not_eq_sym in Hne. apply String.eqb_neq in Hne. rewrite Hne.
    now destruct (find _ (users db)).
Qed.

Lemma create_user_then_lookup_witness :
  get_user_by_username
    (fst (create_user sample_db (mkUserCreate "dave" None "letmein1"))) "dave"
  = Some (mkUser 3 "dave" None "fakehashedletmein1").
Proof.
  apply (create_user_then_lookup sample_db
           (fst (create_user sample_db (mkUserCreate "dave" None "letmein1")))
           (mkUserCreate "dave" None "letmein1")
           (mkUser 3 "dave" None "fakehashedletmein1")).
  reflexivity.
Defined.

(** X2. A second [create_user] with a username that a first one was
    called with raises the integrity error and leaves the database as the
    first call left it, whatever the other fields are. *)
Theorem create_user_twice
        (db : DB) (user_in : UserCreate) (full_name : option string)
        (password : string) :
  create_user (fst (create_user db user_in))
              (mkUserCreate (UserCreate_username user_in) full_name password)
  = (fst (create_user db user_in), Raise IntegrityError).
Proof.
  unfold create_user at 2 3.
  destruct (existsb _ (users db)) eqn:Hex; simpl.
  - unfold create_user. simpl. now rewrite Hex.
  - unfold create_user. simpl. rewrite existsb_app. simpl.
    now rewrite String.eqb_refl, orb_true_r.
Qed.

(** X3. After [create_item] has succeeded, [get_item] gives the new item
    under its id and, under every other id, what it gave before; the new
    id is above every older id and the users are as before. *)
Theorem create_item_then_get_item
        (db db' : DB) (item_in : ItemCreate) (name : string) (item : Item) :
  create_item db item_in name = (db', Ok item) ->
  (forall k, get_item db' k = if k =? Item_id item then Some item else get_item db k)
  /\ (forall it, In it (items db) -> Item_id it < Item_id item)
  /\ users db' = users db.
Proof.
  unfold create_item. destruct (get_user_by_username db name); [|discriminate].
  intros Hc. inversion Hc; subst; clear Hc. simpl.
  assert (forall it, In it (items db) ->
                     Item_id it < next_id (map Item_id (items db))) as Habove.
  { intros it Hin. apply next_id_above. now apply in_map. }
  repeat split; [|assumption].
  intros k. unfold get_item. simpl. rewrite find_app_split. simpl.
  destruct (Z.eqb_spec k (next_id (map Item_id (items db)))) as [->|Hne].
  - rewrite Z.eqb_refl.
    fold (get_item db (next_id (map Item_id (items db)))).
    rewrite get_item_fresh; [reflexivity|].
    intros it Hin. specialize (Habove it Hin). lia.
  - assert ((next_id (map Item_id (items db)) =? k) = false) as ->
        by (apply Z.eqb_neq; congruence).
    now destruct (find _ (items db)).
Qed.

Lemma create_item_then_get_item_witness :
  get_item (fst (create_item sample_db (mkItemCreate "Red Gadget" None) "bob")) 1
  = Some widget
  /\ users (fst (create_item sample_db (mkItemCreate "Red Gadget" None) "bob"))
     = users sample_db.
Proof.
  destruct (create_item_then_get_item sample_db
              (fst (create_item sample_db (mkItemCreate "Red Gadget" None) "bob"))
              (mkItemCreate "Red Gadget" None) "bob"
              (mkItem 2 "Red Gadget" None 1) eq_refl)
    as (Hget & _ & Husers).
  split; [exact (Hget 1)|exact Husers].
Defined.

(** ** Delete and update *)

Lemma length_filter_one (l : list Item) (item : Item) :
  NoDup (map Item_id l) -> In item l ->
  S (List.length (filter (fun it => negb (Item_id it =? Item_id item)) l))
  = List.length l.
Proof.
  induction l as [|x l IH]; simpl; [tauto|].
  intros Hnd Hin. inversion Hnd as [|? ? Hnotin Hnd']; subst.
  destruct Hin as [->|Hin].
  - rewrite Z.eqb_refl. simpl. f_equal. f_equal. apply filter_all.
    intros y Hy. apply negb_true_iff, Z.eqb_neq. intros Heq.
    apply Hnotin. rewrite <- Heq. now apply in_map.
  - assert ((Item_id x =? Item_id item) = false) as ->.
    { apply Z.eqb_neq. intros Heq. apply Hnotin. rewrite Heq. now apply in_map. }
    simpl. f_equal. now apply IH.
Qed.

(** X4. After [delete_item] has returned [True] on a database that
    satisfies the key constraints, [get_item] finds nothing under the id
    and, under every other id, what it found before; the table has one
    row less and the users are as before. *)
Theorem delete_item_then_get_item
        (db db' : DB) (item_id : Z) (name : string) :
  wf_db db ->
  delete_item db item_id name = (db', true) ->
  get_item db' item_id = None
  /\ (forall k, k <> item_id -> get_item db' k = get_item db k)
  /\ S (List.length (items db')) = List.length (items db)
  /\ users db' = users db.
Proof.
  intros (_ & _ & Hitems). unfold delete_item.
  destruct (select_owned db item_id name) as [item|] eqn:Hsel; [|discriminate].
  apply select_owned_Some in Hsel. destruct Hsel as (Hin & Hid & _).
  intros Hd. inversion Hd; subst; clear Hd. unfold get_item. simpl.
  repeat split.
  - apply find_filter_same.
  - intros k Hne. now apply find_filter_other.
  - now apply length_filter_one.
Qed.

Lemma delete_item_then_get_item_witness :
  get_item (fst (delete_item sample_db 1 "bob")) 1 = None
  /\ S (List.length (items (fst (delete_item sample_db 1 "bob"))))
     = List.length (items sample_db).
Proof.
  destruct (delete_item_then_get_item sample_db
              (fst (delete_item sample_db 1 "bob")) 1 "bob"
              sample_db_wf eq_refl)
    as (Hget & _ & Hlen & _).
  split; [exact Hget|exact Hlen].
Defined.

(** X5. A second [delete_item] with the same id and caller returns
    [False] and changes nothing, whatever the first one did. *)
Theorem delete_item_twice (db : DB) (item_id : Z) (name : string) :
  delete_item (fst (delete_item db item_id name)) item_id name
  = (fst (delete_item db item_id name), false).
Proof.
  unfold delete_item at 2 3.
  destruct (select_owned db item_id name) as [item|] eqn:Hsel; simpl.
  - apply select_owned_Some in Hsel. destruct Hsel as (_ & Hid & _).
    unfold delete_item. rewrite select_owned_missing; [reflexivity|].
    simpl. intros it Hin. apply filter_In in Hin. destruct Hin as [_ Hne].
    apply negb_true_iff, Z.eqb_neq in Hne. congruence.
  - unfold delete_item. now rewrite Hsel.
Qed.

Lemma apply_patch_idem (item : Item) (item_in : ItemUpdate) :
  apply_patch (apply_patch item item_in) item_in = apply_patch item item_in.
Proof.
  unfold apply_patch. simpl.
  now destruct (ItemUpdate_title item_in), (ItemUpdate_description item_in).
Qed.

Lemma map_replace_same (l : list Item) (item : Item) :
  NoDup (map Item_id l) -> In item l ->
  map (fun it => if Item_id it =? Item_id item then item else it) l = l.
Proof.
  intros Hnd Hin. rewrite <- (map_id l) at 2. apply map_ext_in.
  intros x Hx. destruct (Z.eqb_spec (Item_id x) (Item_id item)) as [Heq|];
    [|reflexivity].
  now apply (NoDup_key_inj Item_id l).
Qed.

Lemma update_item_wf_keys (db : DB) (item_id : Z) (item_in : ItemUpdate)
      (name : string) :
  wf_db db -> wf_db (fst (update_item db item_id item_in name)).
Proof.
  intros Hwf. unfold update_item.
  destruct (select_owned db item_id name) as [item|]; simpl; [|assumption].
  destruct Hwf as (Hids & Hnames & Hitems).
  repeat split; simpl; try assumption. now rewrite map_Item_id_replace.
Qed.

Lemma map_replace_twice (item' : Item) (k : Z) (l : list Item) :
  Item_id item' = k ->
  map (fun it => if Item_id it =? k then item' else it)
      (map (fun it => if Item_id it =? k then item' else it) l)
  = map (fun it => if Item_id it =? k then item' else it) l.
Proof.
  intros Hk. rewrite map_map. apply map_ext. intros x.
  destruct (Item_id x =? k) eqn:E; [|now rewrite E].
  now rewrite Hk, Z.eqb_refl.
Qed.

(** X6. On a database that satisfies the key constraints, an
    [update_item] repeated with the same arguments returns what the first
    call returned and leaves the database as the first call left it. *)
Theorem update_item_twice
        (db : DB) (item_id : Z) (item_in : ItemUpdate) (name : string) :
  wf_db db ->
  update_item (fst (update_item db item_id item_in name)) item_id item_in name
  = update_item db item_id item_in name.
Proof.
  intros Hwf.
  pose proof (update_item_wf_keys db item_id item_in name Hwf) as Hwf'.
  destruct (update_item db item_id item_in name) as [db' r] eqn:Hupd.
  simpl in *. unfold update_item in Hupd.
  destruct (select_owned db item_id name) as [item|] eqn:Hsel.
  - inversion Hupd as [[Hdb Hr]]. clear Hupd.
    rewrite <- Hdb in Hwf'. clear Hdb Hr db' r.
    apply select_owned_Some in Hsel.
    destruct Hsel as (Hin & Hid & u & Hu & Hfk & Hname).
    set (db1 := {| users := users db;
                   items := map (fun it => if Item_id it =? Item_id item
                                           then apply_patch item item_in
                                           else it) (items db) |}) in *.
    assert (select_owned db1 item_id name = Some (apply_patch item item_in))
      as Hsel'.
    { rewrite <- Hid, <- Hname.
      change (Item_id item) with (Item_id (apply_patch item item_in)).
      apply select_owned_owner; simpl; auto.
      apply in_map_iff. exists item. split; [|assumption].
      now rewrite Z.eqb_refl. }
    unfold update_item. rewrite Hsel'. rewrite apply_patch_idem.
    f_equal. unfold db1. simpl. f_equal.
    now apply map_replace_twice.
  - inversion Hupd; subst. unfold update_item. now rewrite Hsel.
Qed.

Lemma update_item_twice_witness :
  update_item
    (fst (update_item sample_db 1 (mkItemUpdate (Some "Green Widget") None) "bob"))
    1 (mkItemUpdate (Some "Green Widget") None) "bob"
  = update_item sample_db 1 (mkItemUpdate (Some "Green Widget") None) "bob".
Proof.
  exact (update_item_twice sample_db 1 (mkItemUpdate (Some "Green Widget") None)
           "bob" sample_db_wf).
Defined.

(** X7. On a database that satisfies the key constraints, an
    [update_item] whose patch has neither field changes nothing: it
    returns the stored item when the caller owns one of that id and
    [None] otherwise, and the database is as it was. *)
Theorem update_item_empty_patch (db : DB) (item_id : Z) (name : string) :
  wf_db db ->
  update_item db item_id (mkItemUpdate None None) name
  = (db, select_owned db item_id name).
Proof.
  intros (_ & _ & Hitems). unfold update_item.
  destruct (select_owned db item_id name) as [item|] eqn:Hsel; [|reflexivity].
  apply select_owned_Some in Hsel. destruct Hsel as (Hin & _).
  assert (apply_patch item (mkItemUpdate None None) = item) as ->
      by now destruct item.
  rewrite (map_replace_same _ _ Hitems Hin). now destruct db.
Qed.

Lemma update_item_empty_patch_witness :
  update_item sample_db 1 (mkItemUpdate None None) "bob" = (sample_db, Some widget).
Proof.
  exact (update_item_empty_patch sample_db 1 "bob" sample_db_wf).
Defined.

(** ** What a caller cannot touch *)

Lemma owned_ids_differ (db : DB) (it item : Item) (owner u : User) :
  wf_db db ->
  In it (items db) -> In item (items db) ->
  In owner (users db) -> In u (users db) ->
  Item_owner_id it = User_id owner -> User_id u = Item_owner_id item ->
  User_username owner <> User_username u ->
  Item_id it <> Item_id item.
Proof.
  intros (Hids & _ & Hitems) Hit Hitem Howner Hu Hfk Hfk' Hne Heq.
  assert (it = item) by now apply (NoDup_key_inj Item_id (items db)).
  subst item.
  assert (u = owner)
    by (apply (NoDup_key_inj User_id (users db)); auto; congruence).
  subst u. now apply Hne.
Qed.

(** X8. On a database that satisfies the key constraints, whatever id
    and patch a caller passes to [update_item] or [delete_item], an item
    whose owner has another username is afterwards still stored under
    its id, unchanged. *)
Theorem foreign_items_untouched
        (db : DB) (it : Item) (owner : User) (caller : string)
        (item_id : Z) (patch : ItemUpdate) :
  wf_db db ->
  In it (items db) -> In owner (users db) ->
  Item_owner_id it = User_id owner ->
  User_username owner <> caller ->
  get_item (fst (update_item db item_id patch caller)) (Item_id it) = Some it
  /\ get_item (fst (delete_item db item_id caller)) (Item_id it) = Some it.
Proof.
  intros Hwf Hit Howner Hfk Hne.
  pose proof (get_item_unique db it Hwf Hit) as Hget.
  unfold update_item, delete_item.
  destruct (select_owned db item_id caller) as [item|] eqn:Hsel; simpl;
    [|auto].
  apply select_owned_Some in Hsel.
  destruct Hsel as (Hitem & Hid & u & Hu & Hfk' & Hname).
  assert (Item_id it <> Item_id item) as Hdiff.
  { apply (owned_ids_differ db it item owner u); auto. congruence. }
  unfold get_item in *. simpl. split.
  - now rewrite find_replace_other.
  - now rewrite find_filter_other.
Qed.

Lemma foreign_items_untouched_witness :
  get_item (fst (update_item sample_db 1 (mkItemUpdate (Some "Mine now") None)
                             "carol-ann")) 1 = Some widget
  /\ get_item (fst (delete_item sample_db 1 "carol-ann")) 1 = Some widget.
Proof.
  apply (foreign_items_untouched sample_db widget bob "carol-ann" 1
           (mkItemUpdate (Some "Mine now") None) sample_db_wf).
  - simpl. auto.
  - simpl. auto.
  - reflexivity.
  - simpl. discriminate.
Defined.

Lemma select_owned_no_user (db : DB) (item_id : Z) (name : string) :
  get_user_by_username db name = None -> select_owned db item_id name = None.
Proof.
  intros Hget.
  destruct (select_owned db item_id name) as [item|] eqn:Hsel; [|reflexivity].
  apply select_owned_Some in Hsel. destruct Hsel as (_ & _ & u & Hu & _ & Hname).
  now destruct (get_user_by_username_None db name Hget u Hu).
Qed.

(** X9. While no user row has the username "alice", the token of the
    fallback identity resolves to the built-in user of id 0, and with
    that user every write handler refuses and leaves the database as it
    is: [create_item] raises the [ValueError], [update_item] and
    [delete_item] raise the 404 for every id. *)
Theorem fallback_identity_cannot_write (db : DB) :
  get_user_by_username db "alice" = None ->
  exists caller,
    get_current_user db (token_of "alice") = Ok caller
    /\ UserOut_id caller = 0
    /\ (forall item_in,
          main.create_item item_in db caller
          = (db, Raise (ValueError "owner not found")))
    /\ (forall item_id item_in,
          main.update_item item_id item_in db caller
          = (db, Raise main.not_found_or_not_owned))
    /\ (forall item_id,
          main.delete_item item_id db caller
          = (db, Raise main.not_found_or_not_owned)).
Proof.
  intros Hget. eexists. unfold get_current_user. simpl. rewrite Hget. simpl.
  split; [reflexivity|]. split; [reflexivity|]. repeat split.
  - intros item_in. unfold main.create_item, create_item. simpl.
    now rewrite Hget.
  - intros item_id item_in. unfold main.update_item, update_item. simpl.
    now rewrite (select_owned_no_user db item_id "alice" Hget).
  - intros item_id. unfold main.delete_item, delete_item. simpl.
    now rewrite (select_owned_no_user db item_id "alice" Hget).
Qed.

Lemma fallback_identity_cannot_write_witness :
  exists caller,
    get_current_user sample_db "token-alice" = Ok caller
    /\ main.delete_item 1 sample_db caller
       = (sample_db, Raise main.not_found_or_not_owned).
Proof.
  destruct (fallback_identity_cannot_write sample_db eq_refl)
    as (caller & Hres & _ & _ & _ & Hdel).
  exists caller. split; [exact Hres|exact (Hdel 1)].
Defined.

(** X10. On a database that satisfies the key constraints, the handlers
    [main.update_item] and [main.delete_item] answer a caller who is not
    the owner of an existing item with the very exception that they
    raise for an id that no item has, and change nothing. *)
Theorem handlers_foreign_as_missing
        (db : DB) (item : Item) (owner : User) (caller : UserOut)
        (patch : ItemUpdate) (missing : Z) :
  wf_db db ->
  In item (items db) -> In owner (users db) ->
  Item_owner_id item = User_id owner ->
  User_username owner <> UserOut_username caller ->
  (forall it, In it (items db) -> Item_id it <> missing) ->
  main.update_item (Item_id item) patch db caller
  = (db, Raise (HTTPException 404 "Item not found or not owned by you"))
  /\ main.delete_item (Item_id item) db caller
     = (db, Raise (HTTPException 404 "Item not found or not owned by you"))
  /\ main.update_item missing patch db caller
     = main.update_item (Item_id item) patch db caller
  /\ main.delete_item missing db caller
     = main.delete_item (Item_id item) db caller.
Proof.
  intros Hwf Hit Hu Hfk Hne Hmiss.
  pose proof (select_owned_foreign db item owner (UserOut_username caller)
                Hwf Hit Hu Hfk Hne) as Hf.
  pose proof (select_owned_missing db missing (UserOut_username caller) Hmiss)
    as Hm.
  unfold main.update_item, main.delete_item, update_item, delete_item.
  rewrite Hf, Hm. auto.
Qed.

Lemma handlers_foreign_as_missing_witness :
  main.update_item 1 (mkItemUpdate (Some "Mine now") None) sample_db
                   (mkUserOut 2 "carol-ann" (Some "Carol"))
  = (sample_db, Raise (HTTPException 404 "Item not found or not owned by you"))
  /\ main.delete_item 1 sample_db (mkUserOut 2 "carol-ann" (Some "Carol"))
     = (sample_db, Raise (HTTPException 404 "Item not found or not owned by you")).
Proof.
  destruct (handlers_foreign_as_missing sample_db widget bob
              (mkUserOut 2 "carol-ann" (Some "Carol"))
              (mkItemUpdate (Some "Mine now") None) 7 sample_db_wf)
    as (Hupd & Hdel & _).
  - simpl. auto.
  - simpl. auto.
  - reflexivity.
  - simpl. discriminate.
  - simpl. intros it [<-|[]]. simpl. discriminate.
  - split; [exact Hupd|exact Hdel].
Defined.

(** ** Tokens and passwords *)

Lemma startswith_split (s p : string) :
  Str.startswith s p = true -> exists r, s = (p ++ r)%string.
Proof.
  revert s. induction p as [|a p IH]; intros s H.
  - exists s. reflexivity.
  - destruct s as [|b s]; simpl in H; [discriminate|].
    apply andb_true_iff in H. destruct H as [Hab Hs].
    apply Ascii.eqb_eq in Hab. subst b.
    destruct (IH s Hs) as [r ->]. exists r. reflexivity.
Qed.

(** X11. A token that [get_current_user] accepts is ["token-"] followed
    by the username of the user it returns, and that user is either the
    stored row of that username, with its id and full name, or, when no
    row has the username "alice", the built-in alice of id 0. *)
Theorem get_current_user_sound (db : DB) (token : string) (out : UserOut) :
  get_current_user db token = Ok out ->
  token = token_of (UserOut_username out)
  /\ ((exists user,
         get_user_by_username db (UserOut_username out) = Some user
         /\ UserOut_id out = User_id user
         /\ UserOut_full_name out = User_full_name user)
      \/ (get_user_by_username db "alice" = None
          /\ out = mkUserOut 0 "alice" (Some "Alice Dev"))).
Proof.
  unfold get_current_user.
  destruct (String.eqb token "" || negb (Str.startswith token "token-")) eqn:E;
    [discriminate|].
  apply orb_false_iff in E. destruct E as [_ E]. apply negb_false_iff in E.
  destruct (startswith_split _ _ E) as [r ->].
  change ("token-" ++ r)%string with (token_of r).
  rewrite split1_token_of. cbn [nth_error].
  destruct (get_user_by_username db r) as [user|] eqn:Hget.
  - unfold UserOut_model_validate.
    destruct (UserBase_valid (User_username user) (User_full_name user));
      [|discriminate].
    intros Hout. inversion Hout; subst; clear Hout. simpl.
    apply get_user_by_username_Some in Hget as Hname.
    destruct Hname as [_ Hname]. rewrite Hname.
    split; [reflexivity|]. left. exists user. auto.
  - destruct (String.eqb_spec r "alice") as [->|]; [|discriminate].
    intros Hout. inversion Hout; subst; clear Hout. simpl.
    split; [reflexivity|]. right. auto.
Qed.

Lemma get_current_user_sound_witness :
  "token-carol-ann" = token_of "carol-ann"
  /\ ((exists user,
         get_user_by_username sample_db "carol-ann" = Some user
         /\ 2 = User_id user
         /\ Some "Carol" = User_full_name user)
      \/ (get_user_by_username sample_db "alice" = None
          /\ mkUserOut 2 "carol-ann" (Some "Carol")
             = mkUserOut 0 "alice" (Some "Alice Dev"))).
Proof.
  exact (get_current_user_sound sample_db "token-carol-ann"
           (mkUserOut 2 "carol-ann" (Some "Carol")) eq_refl).
Defined.

Lemma fake_hash_password_eqb (a b : string) :
  String.eqb (fake_hash_password a) (fake_hash_password b) = String.eqb a b.
Proof. reflexivity. Qed.

(** X12. On a database that satisfies the key constraints, for a user
    registered with username [u] and password [p0], a login with [u] and
    a password [p] gets the token of [u] exactly when [p] is [p0] or the
    pair is ("alice", "secret"); every other password gets [None]. *)
Theorem authenticate_password_check (db : DB) (u p0 p : string) :
  wf_db db ->
  registered db u p0 ->
  authenticate_user_and_get_token db u p
  = if String.eqb p p0 || (String.eqb u "alice" && String.eqb p "secret")
    then Some (token_of u)
    else None.
Proof.
  intros Hwf (user & Hin & Hname & Hhash & _).
  pose proof (get_user_by_username_unique db user Hwf Hin) as Hget.
  rewrite Hname in Hget.
  unfold authenticate_user_and_get_token. rewrite Hget, Hhash.
  rewrite fake_hash_password_eqb, String.eqb_sym.
  now destruct (String.eqb p p0).
Qed.

Lemma authenticate_password_check_witness :
  authenticate_user_and_get_token sample_db "carol-ann" "pa-ss-word"
  = Some "token-carol-ann"
  /\ authenticate_user_and_get_token sample_db "carol-ann" "Pa-ss-word" = None
  /\ authenticate_user_and_get_token sample_db "carol-ann" "secret" = None.
Proof.
  split; [|split].
  - exact (authenticate_password_check sample_db "carol-ann" "pa-ss-word"
             "pa-ss-word" sample_db_wf sample_db_registered).
  - exact (authenticate_password_check sample_db "carol-ann" "pa-ss-word"
             "Pa-ss-word" sample_db_wf sample_db_registered).
  - exact (authenticate_password_check sample_db "carol-ann" "pa-ss-word"
             "secret" sample_db_wf sample_db_registered).
Defined.

(** X13. On a database that satisfies the key constraints, when a user
    row has the username "alice", whatever its password, the login with
    ("alice", "secret") returns a bearer token that [get_current_user]
    resolves to that stored user, and with it [main.delete_item] deletes
    an item which that user owns. *)
Theorem fallback_pair_opens_stored_account (db : DB) (user : User) (item : Item) :
  wf_db db ->
  In user (users db) -> User_username user = "alice" ->
  UserBase_valid "alice" (User_full_name user) = true ->
  In item (items db) -> Item_owner_id item = User_id user ->
  exists tok caller db',
    main.login_for_access_token db "alice" "secret" = Ok tok
    /\ main.token_type tok = "bearer"
    /\ get_current_user db (main.access_token tok) = Ok caller
    /\ UserOut_id caller = User_id user
    /\ main.delete_item (Item_id item) db caller = (db', Ok true)
    /\ get_item db' (Item_id item) = None.
Proof.
  intros Hwf Hin Hname Hvalid Hitem Hfk.
  pose proof (get_user_by_username_unique db user Hwf Hin) as Hget.
  rewrite Hname in Hget.
  pose proof (select_owned_owner db item user Hwf Hitem Hin Hfk) as Hsel.
  rewrite Hname in Hsel.
  unfold main.login_for_access_token. rewrite authenticate_alice_secret.
  simpl. eexists. eexists. eexists.
  split; [reflexivity|]. split; [reflexivity|]. simpl.
  unfold get_current_user. simpl. rewrite Hget.
  unfold UserOut_model_validate. rewrite Hname, Hvalid.
  split; [reflexivity|]. split; [reflexivity|].
  unfold main.delete_item, delete_item. simpl. rewrite Hsel.
  split; [reflexivity|]. unfold get_item. simpl. apply find_filter_same.
Qed.

Lemma alice_items_db_wf : wf_db alice_items_db.
Proof.
  repeat split; simpl; repeat constructor; simpl; intuition discriminate.
Defined.

Lemma fallback_pair_opens_stored_account_witness :
  exists tok caller db',
    main.login_for_access_token alice_items_db "alice" "secret" = Ok tok
    /\ main.token_type tok = "bearer"
    /\ get_current_user alice_items_db (main.access_token tok) = Ok caller
    /\ UserOut_id caller = 1
    /\ main.delete_item 1 alice_items_db caller = (db', Ok true)
    /\ get_item db' 1 = None.
Proof.
  apply (fallback_pair_opens_stored_account alice_items_db stored_alice
           alice_widget alice_items_db_wf).
  - simpl. auto.
  - reflexivity.
  - reflexivity.
  - simpl. auto.
  - reflexivity.
Defined.

(** ** Register, log in, write *)

Lemma create_user_Ok (db db' : DB) (user_in : UserCreate) (user : User) :
  create_user db user_in = (db', Ok user) ->
  db' = {| users := users db ++ [user]; items := items db |}
  /\ User_username user = UserCreate_username user_in
  /\ User_full_name user = UserCreate_full_name user_in
  /\ User_hashed_password user = fake_hash_password (UserCreate_password user_in)
  /\ ~ In (User_id user) (map User_id (users db))
  /\ ~ In (User_username user) (map User_username (users db)).
Proof.
  unfold create_user. destruct (existsb _ _) eqn:Hex; [discriminate|].
  intros Hc. inversion Hc; subst; clear Hc. simpl. repeat split.
  - apply next_id_fresh.
  - now apply existsb_username_false.
Qed.

Lemma create_user_wf_keys (db db' : DB) (user_in : UserCreate) (user : User) :
  wf_db db -> create_user db user_in = (db', Ok user) -> wf_db db'.
Proof.
  intros (Hids & Hnames & Hitems) Hc.
  apply create_user_Ok in Hc. destruct Hc as (-> & _ & _ & _ & Hid & Hname).
  repeat split; simpl; try assumption; rewrite map_app; simpl;
    now apply NoDup_snoc.
Qed.

Lemma create_item_Ok (db db' : DB) (item_in : ItemCreate) (name : string)
      (item : Item) :
  create_item db item_in name = (db', Ok item) ->
  db' = {| users := users db; items := items db ++ [item] |}
  /\ Item_id item = next_id (map Item_id (items db))
  /\ exists owner, get_user_by_username db name = Some owner
                   /\ Item_owner_id item = User_id owner.
Proof.
  unfold create_item.
  destruct (get_user_by_username db name) as [owner|]; [|discriminate].
  intros Hc. inversion Hc; subst; clear Hc. simpl. repeat split.
  exists owner. auto.
Qed.

Lemma create_item_wf_keys (db db' : DB) (item_in : ItemCreate) (name : string)
      (item : Item) :
  wf_db db -> create_item db item_in name = (db', Ok item) -> wf_db db'.
Proof.
  intros (Hids & Hnames & Hitems) Hc.
  apply create_item_Ok in Hc. destruct Hc as (-> & Hid & _).
  repeat split; simpl; try assumption. rewrite map_app. simpl.
  apply NoDup_snoc; [assumption|]. rewrite Hid. apply next_id_fresh.
Qed.

Lemma delete_item_wf_keys (db : DB) (item_id : Z) (name : string) :
  wf_db db -> wf_db (fst (delete_item db item_id name)).
Proof.
  intros Hwf. unfold delete_item.
  destruct (select_owned db item_id name); simpl; [|assumption].
  destruct Hwf as (Hids & Hnames & Hitems).
  repeat split; simpl; try assumption. now apply NoDup_map_filter.
Qed.

Lemma get_current_user_stored (db : DB) (user : User) :
  wf_db db -> In user (users db) ->
  UserBase_valid (User_username user) (User_full_name user) = true ->
  get_current_user db (token_of (User_username user))
  = Ok {| UserOut_id := User_id user;
          UserOut_username := User_username user;
          UserOut_full_name := User_full_name user |}.
Proof.
  intros Hwf Hin Hvalid.
  pose proof (get_user_by_username_unique db user Hwf Hin) as Hget.
  unfold get_current_user.
  rewrite split1_token_of, startswith_token_of. simpl.
  rewrite Hget. unfold UserOut_model_validate. now rewrite Hvalid.
Qed.

(** X14. On a database that satisfies the key constraints, after a
    registration with valid fields has succeeded: the login with the
    same username and password returns a token, [get_current_user]
    resolves it to the new user, that user's [main.create_item] stores an
    item owned by the new user which [main.get_item] then returns, and
    the user's [main.delete_item] removes it, after which [main.get_item]
    raises the 404. *)
Theorem register_login_create_delete
        (db db1 : DB) (user_in : UserCreate) (user : User) (item_in : ItemCreate) :
  wf_db db ->
  UserCreate_valid user_in = true ->
  main.create_user user_in db = (db1, Ok user) ->
  exists tok caller db2 item db3,
    main.login_for_access_token db1 (UserCreate_username user_in)
                                (UserCreate_password user_in) = Ok tok
    /\ get_current_user db1 (main.access_token tok) = Ok caller
    /\ UserOut_id caller = User_id user
    /\ main.create_item item_in db1 caller = (db2, Ok item)
    /\ Item_owner_id item = User_id user
    /\ Item_title item = ItemCreate_title item_in
    /\ main.get_item (Item_id item) db2 = Ok item
    /\ main.delete_item (Item_id item) db2 caller = (db3, Ok true)
    /\ main.get_item (Item_id item) db3 = Raise main.item_not_found.
Proof.
  intros Hwf Hvalid Hc. unfold main.create_user in Hc.
  pose proof (create_user_wf_keys db db1 user_in user Hwf Hc) as Hwf1.
  apply create_user_Ok in Hc.
  destruct Hc as (Hdb1 & Hname & Hfull & Hhash & _).
  assert (In user (users db1)) as Hin1.
  { rewrite Hdb1. simpl. apply in_app_iff. right. now left. }
  pose proof (get_user_by_username_unique db1 user Hwf1 Hin1) as Hget.
  unfold UserCreate_valid in Hvalid. apply andb_true_iff in Hvalid.
  destruct Hvalid as [Hbase _]. rewrite <- Hname, <- Hfull in Hbase.
  rewrite <- Hname.
  (* login *)
  unfold main.login_for_access_token, authenticate_user_and_get_token.
  rewrite Hget, Hhash, String.eqb_refl. simpl.
  eexists. eexists.
  (* create *)
  destruct (create_item db1 item_in (User_username user)) as [db2 r] eqn:Hci.
  pose proof Hci as Hci'. unfold create_item in Hci'. rewrite Hget in Hci'.
  remember {| Item_id := next_id (map Item_id (items db1));
              Item_title := ItemCreate_title item_in;
              Item_description := ItemCreate_description item_in;
              Item_owner_id := User_id user |} as item eqn:Hitem.
  inversion Hci' as [[Hdb2 Hr]]. clear Hci'. rewrite <- Hr in Hci.
  assert (Item_owner_id item = User_id user) as Hown by now rewrite Hitem.
  assert (Item_title item = ItemCreate_title item_in) as Htitle
      by now rewrite Hitem.
  clear Hitem.
  pose proof (create_item_wf_keys db1 db2 item_in _ item Hwf1 Hci) as Hwf2.
  assert (In item (items db2)) as Hitem2.
  { rewrite <- Hdb2. simpl. apply in_app_iff. right. now left. }
  assert (In user (users db2)) as Hin2 by (rewrite <- Hdb2; exact Hin1).
  pose proof (select_owned_owner db2 item user Hwf2 Hitem2 Hin2 Hown) as Hsel.
  pose proof (get_item_unique db2 item Hwf2 Hitem2) as Hgi.
  exists db2, item. eexists.
  split; [reflexivity|].
  split; [now apply get_current_user_stored|].
  split; [reflexivity|].
  split; [exact Hci|].
  split; [exact Hown|]. split; [exact Htitle|].
  split; [unfold main.get_item; now rewrite Hgi|].
  unfold main.delete_item, delete_item.
  change (UserOut_username _) with (User_username user). rewrite Hsel.
  split; [reflexivity|].
  unfold main.get_item, get_item. simpl. now rewrite find_filter_same.
Qed.

Lemma register_login_create_delete_witness :
  exists tok caller db2 item db3,
    main.login_for_access_token
      (fst (create_user sample_db (mkUserCreate "dave" None "letmein1")))
      "dave" "letmein1" = Ok tok
    /\ get_current_user
         (fst (create_user sample_db (mkUserCreate "dave" None "letmein1")))
         (main.access_token tok) = Ok caller
    /\ UserOut_id caller = 3
    /\ main.create_item (mkItemCreate "Red Gadget" None)
         (fst (create_user sample_db (mkUserCreate "dave" None "letmein1")))
         caller = (db2, Ok item)
    /\ Item_owner_id item = 3
    /\ Item_title item = "Red Gadget"
    /\ main.get_item (Item_id item) db2 = Ok item
    /\ main.delete_item (Item_id item) db2 caller = (db3, Ok true)
    /\ main.get_item (Item_id item) db3 = Raise main.item_not_found.
Proof.
  exact (register_login_create_delete sample_db
           (fst (create_user sample_db (mkUserCreate "dave" None "letmein1")))
           (mkUserCreate "dave" None "letmein1")
           (mkUser 3 "dave" None "fakehashedletmein1")
           (mkItemCreate "Red Gadget" None)
           sample_db_wf eq_refl eq_refl).
Defined.

(** X15. On a database that satisfies the key constraints, a registered
    user stays able to log in after any one further store operation,
    whoever performs it: after a [create_user], [create_item],
    [update_item] or [delete_item] the login with the same username and
    password still returns the user's token. *)
Theorem registration_survives (db : DB) (u p : string) :
  wf_db db ->
  registered db u p ->
  (forall user_in,
      authenticate_user_and_get_token (fst (create_user db user_in)) u p
      = Some (token_of u))
  /\ (forall item_in name,
        authenticate_user_and_get_token (fst (create_item db item_in name)) u p
        = Some (token_of u))
  /\ (forall item_id item_in name,
        authenticate_user_and_get_token
          (fst (update_item db item_id item_in name)) u p
        = Some (token_of u))
  /\ (forall item_id name,
        authenticate_user_and_get_token (fst (delete_item db item_id name)) u p
        = Some (token_of u)).
Proof.
  intros Hwf Hreg.
  destruct (users_kept db) as (Hcu & Hci & Hui & Hdi).
  repeat split.
  - intros user_in. apply stored_user_token.
    + destruct (create_user db user_in) as [db' [user|e]] eqn:Hc.
      * now apply (create_user_wf_keys db db' user_in user).
      * unfold create_user in Hc. destruct (existsb _ _); inversion Hc.
        subst. exact Hwf.
    + apply (registered_incl db); [apply Hcu|exact Hreg].
  - intros item_in name. apply stored_user_token.
    + destruct (create_item db item_in name) as [db' [item|e]] eqn:Hc.
      * now apply (create_item_wf_keys db db' item_in name item).
      * unfold create_item in Hc.
        destruct (get_user_by_username db name); inversion Hc.
        subst. exact Hwf.
    + apply (registered_incl db); [rewrite Hci; apply incl_refl|exact Hreg].
  - intros item_id item_in name. apply stored_user_token.
    + now apply update_item_wf_keys.
    + apply (registered_incl db); [rewrite Hui; apply incl_refl|exact Hreg].
  - intros item_id name. apply stored_user_token.
    + now apply delete_item_wf_keys.
    + apply (registered_incl db); [rewrite Hdi; apply incl_refl|exact Hreg].
Qed.

Lemma registration_survives_witness :
  authenticate_user_and_get_token
    (fst (create_user sample_db (mkUserCreate "carol-ann" None "another1")))
    "carol-ann" "pa-ss-word" = Some "token-carol-ann"
  /\ authenticate_user_and_get_token
       (fst (delete_item sample_db 1 "bob")) "carol-ann" "pa-ss-word"
     = Some "token-carol-ann".
Proof.
  destruct (registration_survives sample_db "carol-ann" "pa-ss-word"
              sample_db_wf sample_db_registered)
    as (Hcu & _ & _ & Hdi).
  split.
  - exact (Hcu (mkUserCreate "carol-ann" None "another1")).
  - exact (Hdi 1 "bob").
Defined.

(** X16. Every database that the store operations build from the empty
    one has unique user ids, usernames and item ids, every item row
    refers to a user row, and the join of the list query pairs every
    item row with exactly one user row, so that no item is lost from or
    repeated in the list query. *)
Theorem reachable_constraints (db : DB) :
  reachable db ->
  wf_db db /\ fk_db db /\ map fst (join_Item_User db) = items db.
Proof.
  intros Hreach. destruct (reachable_wf db Hreach) as [Hwf Hfk].
  split; [assumption|]. split; [assumption|].
  now apply map_fst_join_Item_User.
Qed.

Lemma reachable_constraints_witness :
  wf_db built_db /\ fk_db built_db
  /\ map fst (join_Item_User built_db) = items built_db.
Proof.
  apply (reachable_constraints built_db).
  unfold built_db. apply reach_create_item. apply reach_create_user.
  apply reach_empty.
Defined.

(** ** The schemas *)

Lemma startswith_app (n b : string) : Str.startswith (n ++ b) n = true.
Proof.
  induction n as [|c n IH]; simpl; [reflexivity|].
  now rewrite Ascii.eqb_refl, IH.
Qed.

Lemma contains_unfold (n h : string) :
  Str.contains n h
  = Str.startswith h n
    || match h with
       | EmptyString => false
       | String _ h' => Str.contains n h'
       end.
Proof. destruct h; reflexivity. Qed.

Lemma contains_app (n a b : string) : Str.contains n (a ++ n ++ b) = true.
Proof.
  induction a as [|c a IH].
  - rewrite contains_unfold.
    change ("" ++ n ++ b)%string with (n ++ b)%string.
    now rewrite startswith_app.
  - change (String c a ++ n ++ b)%string with (String c (a ++ n ++ b)).
    rewrite contains_unfold. cbv iota.
    rewrite IH. apply orb_true_r.
Qed.

(** X17. [ItemBase] refuses every title in which the banned word stands
    anywhere in any letter case, whatever stands before and after it;
    so does [ItemCreate]. *)
Theorem banned_word_refused_anywhere (a w b : string) (d : option string) :
  Str.lower w = "badword" ->
  ItemBase_title_valid (a ++ w ++ b) = false
  /\ ItemCreate_valid (mkItemCreate (a ++ w ++ b) d) = false.
Proof.
  intros Hw.
  assert (no_banned_words (a ++ w ++ b) = false) as Hban.
  { unfold no_banned_words, banned. simpl.
    rewrite !lower_app, Hw, contains_app. reflexivity. }
  unfold ItemCreate_valid, ItemBase_valid, ItemBase_title_valid. simpl.
  rewrite Hban. rewrite andb_false_r. auto.
Qed.

Lemma banned_word_refused_anywhere_witness :
  ItemBase_title_valid "Bad bAdWoRd here" = false
  /\ ItemCreate_valid (mkItemCreate "Bad bAdWoRd here" None) = false.
Proof.
  exact (banned_word_refused_anywhere "Bad " "bAdWoRd" " here" None eq_refl).
Defined.

Lemma len_between_3_nonempty (hi : nat) (s : string) :
  len_between 3 hi s = true -> title_validator (Some s) = true.
Proof.
  unfold len_between, title_validator. intros H.
  apply andb_true_iff in H. destruct H as [H3 _].
  apply Nat.leb_le in H3.
  assert ((String.length s <? 3)%nat = false) as -> by (apply Nat.ltb_ge; lia).
  now rewrite andb_false_r.
Qed.

(** X18. [ItemUpdate] checks lengths only: a patch with a title is
    accepted exactly when the title has 3 to 200 characters and the
    description, if any, at most 2000, so [title_validator] refuses
    nothing that the field constraints let through; and every title and
    description that [ItemCreate] accepts, [ItemUpdate] accepts. *)
Theorem ItemUpdate_checks_lengths_only (title : string) (d : option string) :
  ItemUpdate_valid (mkItemUpdate (Some title) d)
  = len_between 3 200 title && opt_max_length 2000 d
  /\ (ItemCreate_valid (mkItemCreate title d) = true ->
      ItemUpdate_valid (mkItemUpdate (Some title) d) = true).
Proof.
  assert (ItemUpdate_valid (mkItemUpdate (Some title) d)
          = len_between 3 200 title && opt_max_length 2000 d) as Heq.
  { unfold ItemUpdate_valid. simpl ItemUpdate_title. simpl ItemUpdate_description.
    destruct (len_between 3 200 title) eqn:Hlen; [|reflexivity].
    rewrite (len_between_3_nonempty 200 title Hlen). now rewrite andb_true_r. }
  split; [exact Heq|].
  rewrite Heq. unfold ItemCreate_valid, ItemBase_valid, ItemBase_title_valid.
  simpl. intros H.
  apply andb_true_iff in H. destruct H as [H Hd].
  apply andb_true_iff in H. destruct H as [H _].
  apply andb_true_iff in H. destruct H as [Hlen _].
  now rewrite Hlen, Hd.
Qed.

Lemma ItemUpdate_checks_lengths_only_witness :
  ItemUpdate_valid (mkItemUpdate (Some "Blue Widget") (Some "a note")) = true.
Proof.
  exact (proj2 (ItemUpdate_checks_lengths_only "Blue Widget" (Some "a note"))
           eq_refl).
Defined.

(** ** What a page holds *)

Lemma shelf_db_wf : wf_db shelf_db.
Proof.
  repeat split; simpl; repeat constructor; simpl; intuition discriminate.
Defined.

Lemma shelf_db_fk : fk_db shelf_db.
Proof.
  intros it [<-|[<-|[<-|[]]]]; simpl.
  - exists bob. simpl. auto.
  - exists carol. simpl. auto.
  - exists bob. simpl. auto.
Defined.

Lemma unique_In (l : list Item) (it : Item) : In it (unique l) -> In it l.
Proof.
  induction l as [|x l IH]; simpl; [tauto|].
  intros [->|Hin]; [now left|]. right. apply IH.
  apply filter_In in Hin. tauto.
Qed.

Lemma unique_ids_NoDup (l : list Item) : NoDup (map Item_id (unique l)).
Proof.
  induction l as [|x l IH]; simpl; [constructor|].
  constructor.
  - intros Hin. apply in_map_iff in Hin. destruct Hin as (y & Hid & Hy).
    apply filter_In in Hy. destruct Hy as [_ Hne].
    apply negb_true_iff, Z.eqb_neq in Hne. congruence.
  - now apply NoDup_map_filter.
Qed.

Lemma limit_offset_In {A} (n m : Z) (l : list A) (x : A) :
  In x (Sql.limit n (Sql.offset m l)) -> In x l.
Proof.
  unfold Sql.limit, Sql.offset. intros Hin.
  assert (In x (skipn (Z.to_nat m) l)) as Hskip.
  { destruct (n <? 0); [assumption|].
    rewrite <- (firstn_skipn (Z.to_nat n) (skipn (Z.to_nat m) l)).
    apply in_app_iff. now left. }
  rewrite <- (firstn_skipn (Z.to_nat m) l). apply in_app_iff. now right.
Qed.

(** X19. Whatever the database and the arguments, every item on a page
    that [get_items] returns is a stored item that passes the search
    filter, no two items of the page have the same id, and the total is
    not negative. *)
Theorem get_items_page_sound
        (Base_attr : string -> option (Result OrderKey)) (db : DB)
        (q sort_by order : option string) (limit offset : Z)
        (page : list Item) (total : Z) :
  get_items Base_attr db q limit offset sort_by order = Ok (page, total) ->
  (forall it, In it page -> In it (items db) /\ matches q it = true)
  /\ NoDup (map Item_id page)
  /\ 0 <= total.
Proof.
  unfold get_items.
  destruct (sort_col Base_attr sort_by) as [key|e]; [|discriminate].
  intros Hget. inversion Hget as [[Hpage Htotal]]. clear Hget.
  split; [|split].
  - intros it Hin. apply unique_In in Hin. apply in_map_iff in Hin.
    destruct Hin as ([it' u] & Hfst & Hin). simpl in Hfst. subst it'.
    apply limit_offset_In in Hin.
    assert (In (it, u) (filter (fun r => matches q (fst r)) (join_Item_User db)))
      as Hrow.
    { destruct (is_desc order).
      - now apply (Permutation_in _ (order_desc_perm key _)).
      - now apply (Permutation_in _ (order_asc_perm key _)). }
    apply filter_In in Hrow. destruct Hrow as [Hjoin Hmatch].
    apply in_join_Item_User in Hjoin. tauto.
  - apply unique_ids_NoDup.
  - unfold count_matching. lia.
Qed.

Lemma get_items_page_sound_witness :
  (forall it, In it [widget; zebra_mug] ->
              In it (items shelf_db) /\ matches (Some "G") it = true)
  /\ NoDup (map Item_id [widget; zebra_mug])
  /\ 0 <= 2.
Proof.
  exact (get_items_page_sound (fun _ => None) shelf_db (Some "G") None None
           2 0 [widget; zebra_mug] 2 eq_refl).
Defined.

(** ** The order of a page *)

Lemma Sql_compare_antisym (a b : Sql.value) :
  Sql.compare b a = CompOpp (Sql.compare a b).
Proof.
  destruct a as [|x|x], b as [|y|y]; simpl; try reflexivity.
  - apply Z.compare_antisym.
  - apply String.compare_antisym.
Qed.

Lemma Sql_leb_total (a b : Sql.value) :
  Sql.leb a b = false -> Sql.leb b a = true.
Proof.
  unfold Sql.leb. rewrite (Sql_compare_antisym a b).
  now destruct (Sql.compare a b).
Qed.

Section InsertSorted.

Context {A : Type} (key : A -> Sql.value) (le : Sql.value -> Sql.value -> bool).
Hypothesis le_total : forall a b, le a b = false -> le b a = true.

Let R (x y : A) : Prop := le (key x) (key y) = true.

Lemma insert_by_HdRel (y x : A) (l : list A) :
  HdRel R y l -> R y x -> HdRel R y (Sql.insert_by key le x l).
Proof.
  intros Hhd Hyx. destruct l as [|z l]; simpl.
  - now constructor.
  - destruct (le (key x) (key z)); constructor; [assumption|].
    now inversion Hhd.
Qed.

Lemma insert_by_Sorted (x : A) (l : list A) :
  Sorted R l -> Sorted R (Sql.insert_by key le x l).
Proof.
  induction l as [|y l IH]; simpl; intros Hs.
  - repeat constructor.
  - destruct (le (key x) (key y)) eqn:E.
    + constructor; [assumption|]. now constructor.
    + inversion Hs as [|? ? Hs' Hhd]; subst.
      constructor; [now apply IH|].
      apply insert_by_HdRel; [assumption|]. now apply le_total.
Qed.

Lemma fold_insert_by_Sorted (l : list A) :
  Sorted R (fold_right (Sql.insert_by key le) [] l).
Proof.
  induction l as [|x l IH]; simpl; [constructor|]. now apply insert_by_Sorted.
Qed.

End InsertSorted.

Lemma Sorted_skipn {A} (R : A -> A -> Prop) (n : nat) (l : list A) :
  Sorted R l -> Sorted R (skipn n l).
Proof.
  revert l. induction n as [|n IH]; intros l Hs; [assumption|].
  destruct l as [|x l]; [constructor|]. simpl. apply IH.
  now inversion Hs.
Qed.

Lemma Sorted_firstn {A} (R : A -> A -> Prop) (n : nat) (l : list A) :
  Sorted R l -> Sorted R (firstn n l).
Proof.
  revert n. induction l as [|x l IH]; intros n Hs.
  - destruct n; constructor.
  - destruct n as [|n]; [constructor|]. simpl.
    inversion Hs as [|? ? Hs' Hhd]; subst. constructor; [now apply IH|].
    destruct l as [|y l]; [destruct n; constructor|].
    destruct n as [|n]; [constructor|]. simpl. constructor. now inversion Hhd.
Qed.

Lemma Sorted_limit_offset {A} (R : A -> A -> Prop) (n m : Z) (l : list A) :
  Sorted R l -> Sorted R (Sql.limit n (Sql.offset m l)).
Proof.
  intros Hs. unfold Sql.limit, Sql.offset.
  destruct (n <? 0); [now apply Sorted_skipn|].
  now apply Sorted_firstn, Sorted_skipn.
Qed.

Lemma Sorted_map_fst {A B} (R : A -> A -> Prop) (l : list (A * B)) :
  Sorted (fun r r' => R (fst r) (fst r')) l -> Sorted R (map fst l).
Proof.
  induction 1 as [|r l Hs IH Hhd]; simpl; constructor; [assumption|].
  destruct Hhd; simpl; now constructor.
Qed.

Lemma ordered_rows_Sorted (c : Column) (order : option string)
      (rows : list (Item * User)) :
  Sorted (fun r r' => in_order c order (fst r) (fst r'))
         (if is_desc order then Sql.order_desc (by_column c) rows
          else Sql.order_asc (by_column c) rows).
Proof.
  unfold in_order, Sql.order_desc, Sql.order_asc.
  destruct (is_desc order).
  - apply (fold_insert_by_Sorted (by_column c) (fun a b => Sql.leb b a)).
    intros a b. apply Sql_leb_total.
  - apply (fold_insert_by_Sorted (by_column c) Sql.leb).
    intros a b. apply Sql_leb_total.
Qed.

Lemma sort_col_column (Base_attr : string -> option (Result OrderKey))
      (name : string) (c : Column) :
  column_named name = Some c ->
  sort_col Base_attr (Some name) = Ok (by_column c).
Proof.
  unfold column_named, sort_col, Item_getattr, Item_declared, column_named.
  destruct (String.eqb_spec name "id") as [->|_]; simpl.
  { intros H. now inversion H. }
  destruct (String.eqb_spec name "title") as [->|_]; simpl.
  { intros H. now inversion H. }
  destruct (String.eqb_spec name "description") as [->|_]; simpl.
  { intros H. now inversion H. }
  destruct (String.eqb_spec name "owner_id") as [->|_]; simpl.
  { intros H. now inversion H. }
  discriminate.
Qed.

(** The list query on a database that satisfies the constraints: the
    slice of the ordered matching items, with their number. *)
Lemma get_items_wf_form
      (Base_attr : string -> option (Result OrderKey)) (db : DB)
      (q sort_by order : option string) (limit offset : Z) :
  wf_db db -> fk_db db ->
  get_items Base_attr db q limit offset sort_by order
  = match sort_col Base_attr sort_by with
    | Raise e => Raise e
    | Ok key =>
        Ok (Sql.limit limit
              (Sql.offset offset
                 (map fst
                    (if is_desc order
                     then Sql.order_desc key
                            (filter (fun r => matches q (fst r)) (join_Item_User db))
                     else Sql.order_asc key
                            (filter (fun r => matches q (fst r)) (join_Item_User db))))),
            count_matching db q)
    end.
Proof.
  intros Hwf Hfk. unfold get_items.
  destruct (sort_col Base_attr sort_by) as [key|e]; [|reflexivity].
  f_equal. f_equal.
  set (rows := filter (fun r => matches q (fst r)) (join_Item_User db)).
  set (sorted := if is_desc order then Sql.order_desc key rows
                 else Sql.order_asc key rows).
  rewrite map_limit_offset. apply unique_NoDup.
  rewrite map_limit_offset. apply NoDup_limit_offset.
  assert (Permutation (map fst sorted) (filter (matches q) (items db))) as Hperm.
  { rewrite <- (map_fst_join_Item_User db Hwf Hfk), <- map_fst_filter.
    apply Permutation_map. unfold sorted.
    destruct (is_desc order); [apply order_desc_perm|apply order_asc_perm]. }
  apply (Permutation_NoDup (Permutation_sym (Permutation_map Item_id Hperm))).
  apply NoDup_map_filter. now destruct Hwf as (_ & _ & Hitems).
Qed.

(** X20. On a database that satisfies the constraints, [get_items]
    with the name of a column as [sort_by] returns the items
    [offset .. offset + limit) of the list of all matching items put in
    the order of that column, ascending, or descending when [order] is
    ["desc"]; the page itself is in that order. *)
Theorem get_items_sorted_page
        (Base_attr : string -> option (Result OrderKey)) (db : DB)
        (q order : option string) (name : string) (c : Column)
        (limit offset : Z) :
  wf_db db -> fk_db db ->
  column_named name = Some c ->
  exists all,
    get_items Base_attr db q limit offset (Some name) order
    = Ok (Sql.limit limit (Sql.offset offset all), Z.of_nat (List.length all))
    /\ Permutation all (filter (matches q) (items db))
    /\ Sorted (in_order c order) all
    /\ Sorted (in_order c order) (Sql.limit limit (Sql.offset offset all)).
Proof.
  intros Hwf Hfk Hcol.
  rewrite (get_items_wf_form Base_attr db q (Some name) order limit offset Hwf Hfk).
  rewrite (sort_col_column Base_attr name c Hcol).
  set (rows := filter (fun r => matches q (fst r)) (join_Item_User db)).
  set (sorted := if is_desc order then Sql.order_desc (by_column c) rows
                 else Sql.order_asc (by_column c) rows).
  assert (Permutation (map fst sorted) (filter (matches q) (items db))) as Hperm.
  { rewrite <- (map_fst_join_Item_User db Hwf Hfk), <- map_fst_filter.
    apply Permutation_map. unfold sorted.
    destruct (is_desc order); [apply order_desc_perm|apply order_asc_perm]. }
  assert (Sorted (in_order c order) (map fst sorted)) as Hsorted.
  { apply Sorted_map_fst. apply ordered_rows_Sorted. }
  exists (map fst sorted). split; [|split; [|split]].
  - unfold count_matching. now rewrite (Permutation_length Hperm).
  - exact Hperm.
  - exact Hsorted.
  - now apply Sorted_limit_offset.
Qed.

Lemma get_items_sorted_page_witness :
  exists all,
    get_items (fun _ => None) shelf_db None 2 1 (Some "title") (Some "desc")
    = Ok (Sql.limit 2 (Sql.offset 1 all), Z.of_nat (List.length all))
    /\ Permutation all (filter (matches None) (items shelf_db))
    /\ Sorted (in_order col_title (Some "desc")) all
    /\ Sorted (in_order col_title (Some "desc")) (Sql.limit 2 (Sql.offset 1 all)).
Proof.
  exact (get_items_sorted_page (fun _ => None) shelf_db None (Some "desc")
           "title" col_title 2 1 shelf_db_wf shelf_db_fk eq_refl).
Defined.

(** ** Pages side by side *)

Lemma firstn_app_skipn {A} (a b : nat) (l : list A) :
  (firstn a l ++ firstn b (skipn a l))%list = firstn (a + b) l.
Proof.
  revert l. induction a as [|a IH]; intros l; [reflexivity|].
  destruct l as [|x l]; simpl.
  - now rewrite firstn_nil.
  - now rewrite IH.
Qed.

(** X21. On a database that satisfies the constraints, with [limit] and
    [offset] not negative, a page has [min limit (total - offset)] items,
    and none once [offset] reaches the total. *)
Theorem get_items_page_size
        (Base_attr : string -> option (Result OrderKey)) (db : DB)
        (q sort_by order : option string) (limit offset : Z)
        (page : list Item) (total : Z) :
  wf_db db -> fk_db db -> 0 <= limit -> 0 <= offset ->
  get_items Base_attr db q limit offset sort_by order = Ok (page, total) ->
  Z.of_nat (List.length page) = Z.min limit (Z.max 0 (total - offset))
  /\ (total <= offset -> page = []).
Proof.
  intros Hwf Hfk Hlimit Hoffset Hget.
  pose proof (get_items_page_length Base_attr db q sort_by order limit offset
                page total Hwf Hfk Hlimit Hoffset Hget) as Hlen.
  split; [exact Hlen|].
  intros Hle. destruct page as [|x page]; [reflexivity|].
  simpl List.length in Hlen. lia.
Qed.

Lemma get_items_page_size_witness :
  Z.of_nat (List.length [zebra_mug]) = Z.min 2 (Z.max 0 (3 - 2))
  /\ (3 <= 2 -> [zebra_mug] = []).
Proof.
  apply (get_items_page_size (fun _ => None) shelf_db None None None 2 2
           [zebra_mug] 3 shelf_db_wf shelf_db_fk).
  - lia.
  - lia.
  - reflexivity.
Defined.

(** X22. On a database that satisfies the constraints, with [offset] and
    both limits not negative, the page of [l1] items at [offset]
    followed by the page of [l2] items at [offset + l1] is the page of
    [l1 + l2] items at [offset], and the three calls give one total. *)
Theorem get_items_pages_concat
        (Base_attr : string -> option (Result OrderKey)) (db : DB)
        (q sort_by order : option string) (offset l1 l2 : Z)
        (p1 p2 p3 : list Item) (t1 t2 t3 : Z) :
  wf_db db -> fk_db db -> 0 <= offset -> 0 <= l1 -> 0 <= l2 ->
  get_items Base_attr db q l1 offset sort_by order = Ok (p1, t1) ->
  get_items Base_attr db q l2 (offset + l1) sort_by order = Ok (p2, t2) ->
  get_items Base_attr db q (l1 + l2) offset sort_by order = Ok (p3, t3) ->
  p3 = (p1 ++ p2)%list /\ t1 = t2 /\ t2 = t3.
Proof.
  intros Hwf Hfk Hoffset Hl1 Hl2.
  rewrite !(get_items_wf_form Base_attr db q sort_by order _ _ Hwf Hfk).
  destruct (sort_col Base_attr sort_by) as [key|e]; [|discriminate].
  set (all := map fst _).
  intros H1 H2 H3.
  inversion H1 as [[Hp1 Ht1]]. inversion H2 as [[Hp2 Ht2]].
  inversion H3 as [[Hp3 Ht3]]. clear H1 H2 H3.
  split; [|split; congruence].
  unfold Sql.limit, Sql.offset.
  assert ((l1 <? 0) = false) as -> by now apply Z.ltb_ge.
  assert ((l2 <? 0) = false) as -> by now apply Z.ltb_ge.
  assert ((l1 + l2 <? 0) = false) as -> by (apply Z.ltb_ge; lia).
  rewrite (Z2Nat.inj_add offset l1) by assumption.
  rewrite (Z2Nat.inj_add l1 l2) by assumption.
  rewrite (Nat.add_comm (Z.to_nat offset) (Z.to_nat l1)).
  rewrite <- skipn_skipn. now rewrite firstn_app_skipn.
Qed.

Lemma get_items_pages_concat_witness :
  [widget; zebra_mug; apple_pie] = ([widget; zebra_mug] ++ [apple_pie])%list
  /\ 3 = 3 /\ 3 = 3.
Proof.
  apply (get_items_pages_concat (fun _ => None) shelf_db None (Some "owner_id")
           None 0 2 1 [widget; zebra_mug] [apple_pie]
           [widget; zebra_mug; apple_pie] 3 3 3 shelf_db_wf shelf_db_fk).
  - lia.
  - lia.
  - lia.
  - reflexivity.
  - reflexivity.
  - reflexivity.
Defined.

(** ** The search term *)

Lemma lower_empty (q : string) : String.eqb (Str.lower q) "" = String.eqb q "".
Proof. now destruct q. Qed.

Lemma matches_lower (q : string) (it : Item) :
  matches (Some (Str.lower q)) it = matches (Some q) it.
Proof.
  unfold matches. rewrite lower_empty.
  destruct (String.eqb q ""); [reflexivity|].
  unfold Sql.ilike.
  assert (forall s, Str.lower ("%" ++ Str.lower s ++ "%")
                    = Str.lower ("%" ++ s ++ "%")) as Hterm.
  { intros s. change ("%" ++ Str.lower s ++ "%")%string
      with (String "%" (Str.lower s ++ "%")).
    change ("%" ++ s ++ "%")%string with (String "%" (s ++ "%")).
    simpl. rewrite !lower_app. f_equal. f_equal.
    induction s as [|c s IH]; simpl; [reflexivity|].
    now rewrite lower_char_idem, IH. }
  now rewrite Hterm.
Qed.

Lemma get_items_matches_ext
      (Base_attr : string -> option (Result OrderKey)) (db : DB)
      (q q' sort_by order : option string) (limit offset : Z) :
  (forall it, matches q it = matches q' it) ->
  get_items Base_attr db q limit offset sort_by order
  = get_items Base_attr db q' limit offset sort_by order.
Proof.
  intros Hext. unfold get_items, count_matching.
  rewrite (filter_ext (matches q) (matches q') Hext).
  rewrite (filter_ext (fun r => matches q (fst r))
                      (fun r => matches q' (fst r)) (fun r => Hext (fst r))).
  reflexivity.
Qed.

(** X23. The letter case of the search term does not matter: two terms
    that agree up to the case of their ASCII letters give the same page
    and the same total. *)
Theorem get_items_search_ignores_case
        (Base_attr : string -> option (Result OrderKey)) (db : DB)
        (q q' : string) (sort_by order : option string) (limit offset : Z) :
  Str.lower q = Str.lower q' ->
  get_items Base_attr db (Some q) limit offset sort_by order
  = get_items Base_attr db (Some q') limit offset sort_by order.
Proof.
  intros Hlow. apply get_items_matches_ext. intros it.
  rewrite <- (matches_lower q it), <- (matches_lower q' it).
  now rewrite Hlow.
Qed.

Lemma get_items_search_ignores_case_witness :
  get_items (fun _ => None) shelf_db (Some "WiDgEt") 10 0 None None
  = get_items (fun _ => None) shelf_db (Some "widget") 10 0 None None.
Proof.
  exact (get_items_search_ignores_case (fun _ => None) shelf_db
           "WiDgEt" "widget" None None 10 0 eq_refl).
Defined.

Lemma get_items_page_members
      (Base_attr : string -> option (Result OrderKey)) (db : DB)
      (q sort_by order : option string) (limit offset : Z)
      (page : list Item) (total : Z) (it : Item) :
  get_items Base_attr db q limit offset sort_by order = Ok (page, total) ->
  In it page -> In it (items db) /\ matches q it = true.
Proof.
  unfold get_items.
  destruct (sort_col Base_attr sort_by) as [key|e]; [|discriminate].
  intros Hget. inversion Hget as [[Hpage Htotal]]. clear Hget.
  intros Hin. apply unique_In in Hin. apply in_map_iff in Hin.
  destruct Hin as ([it' u] & Hfst & Hin). simpl in Hfst. subst it'.
  apply limit_offset_In in Hin.
  assert (In (it, u) (filter (fun r => matches q (fst r)) (join_Item_User db)))
    as Hrow.
  { destruct (is_desc order).
    - now apply (Permutation_in _ (order_desc_perm key _)).
    - now apply (Permutation_in _ (order_asc_perm key _)). }
  apply filter_In in Hrow. destruct Hrow as [Hjoin Hmatch].
  apply in_join_Item_User in Hjoin. tauto.
Qed.

(** X24. For a search term that is not empty and has neither [%] nor
    [_], the total is the number of items in whose title or description
    the term occurs, letter case aside, and the term occurs so in every
    item of the page. *)
Theorem get_items_wildcard_free_search
        (Base_attr : string -> option (Result OrderKey)) (db : DB)
        (q : string) (sort_by order : option string) (limit offset : Z)
        (page : list Item) (total : Z) :
  wildcard_free q = true -> q <> "" ->
  get_items Base_attr db (Some q) limit offset sort_by order = Ok (page, total) ->
  total
  = Z.of_nat
      (List.length
         (filter (fun it =>
                    occurs_ignoring_case q (Item_title it)
                    || match Item_description it with
                       | Some d => occurs_ignoring_case q d
                       | None => false
                       end)
                 (items db)))
  /\ (forall it, In it page ->
        occurs_ignoring_case q (Item_title it) = true
        \/ exists d, Item_description it = Some d
                     /\ occurs_ignoring_case q d = true).
Proof.
  intros Hfree Hne Hget. split.
  - unfold get_items in Hget.
    destruct (sort_col Base_attr sort_by); [|discriminate].
    inversion Hget as [[Hpage Htotal]]. unfold count_matching.
    f_equal. f_equal. apply filter_ext. intros it.
    now apply matches_wildcard_free.
  - intros it Hin.
    destruct (get_items_page_members _ _ _ _ _ _ _ _ _ it Hget Hin)
      as [_ Hmatch].
    rewrite (matches_wildcard_free q it Hfree Hne) in Hmatch.
    apply orb_true_iff in Hmatch. destruct Hmatch as [Ht|Hd]; [now left|].
    right. destruct (Item_description it) as [d|]; [|discriminate].
    exists d. auto.
Qed.

Lemma get_items_wildcard_free_search_witness :
  1 = Z.of_nat
        (List.length
           (filter (fun it =>
                      occurs_ignoring_case "SWEET" (Item_title it)
                      || match Item_description it with
                         | Some d => occurs_ignoring_case "SWEET" d
                         | None => false
                         end)
                   (items shelf_db)))
  /\ (forall it, In it [apple_pie] ->
        occurs_ignoring_case "SWEET" (Item_title it) = true
        \/ exists d, Item_description it = Some d
                     /\ occurs_ignoring_case "SWEET" d = true).
Proof.
  apply (get_items_wildcard_free_search (fun _ => None) shelf_db "SWEET"
           None None 10 0 [apple_pie] 1).
  - reflexivity.
  - discriminate.
  - reflexivity.
Defined.

(** X25. The fallbacks of the list query: an empty search term filters
    nothing, a [sort_by] that names no attribute of [models.Item] sorts
    by id, and an [order] other than ["desc"] sorts ascending, so that
    such a call returns what the call without a term and without a
    [sort_by] returns in ascending order. *)
Theorem get_items_fallbacks
        (Base_attr : string -> option (Result OrderKey)) (db : DB)
        (name : string) (order : option string) (limit offset : Z) :
  Item_getattr Base_attr name = None ->
  order <> Some "desc" ->
  get_items Base_attr db (Some "") limit offset (Some name) order
  = get_items Base_attr db None limit offset None (Some "asc")
  /\ get_items Base_attr db None limit offset None (Some "asc")
     = get_items Base_attr db None limit offset (Some "id") (Some "asc").
Proof.
  intros Hattr Horder. unfold get_items, sort_col. rewrite Hattr. simpl.
  assert (is_desc order = false) as ->.
  { destruct order as [s|]; [|reflexivity]. simpl.
    apply String.eqb_neq. congruence. }
  split; reflexivity.
Qed.

Lemma get_items_fallbacks_witness :
  get_items (fun _ => None) shelf_db (Some "") 10 0 (Some "price") (Some "DESC")
  = get_items (fun _ => None) shelf_db None 10 0 None (Some "asc").
Proof.
  apply (get_items_fallbacks (fun _ => None) shelf_db "price" (Some "DESC") 10 0).
  - reflexivity.
  - discriminate.
Defined.
